(** * go-htmlutil: the filter / find traversal and the node handle

    A shallow embedding of [internal.go] (the traversal engine over
    [*html.Node]) and of the [Node] handle of the package, followed by the
    properties of the traversal: absence of duplicates, the chain semantics
    of the filters, the relation between the find and the collect modes,
    and the bookkeeping done by the handle's accessors. *)

From Stdlib Require Import ZArith.
From stdpp Require Import list strings.

Set Warnings "-register-all".

(** ** Outcomes of a run

    A Go call either returns, panics (index out of range), or, in the
    embedding, exhausts the fuel that bounds recursion over a pointer
    graph that need not be a tree. *)

Inductive outcome (A : Type) : Type :=
| Ret (a : A)
| OutOfFuel
| Panic.

Arguments Ret {A} a.
Arguments OutOfFuel {A}.
Arguments Panic {A}.

#[global] Instance outcome_ret : MRet outcome := fun A a => Ret a.

#[global] Instance outcome_bind : MBind outcome := fun A B k m =>
  match m with
  | Ret a => k a
  | OutOfFuel => OutOfFuel
  | Panic => Panic
  end.

(** ** The parsed document: golang.org/x/net/html

    Nodes live in a store addressed by pointers; [None] is the nil pointer.
    Every non-nil pointer can be dereferenced. Of [html.Node] the record
    below keeps the fields that the package reads. *)

Definition ptr : Type := nat.

Module html.

Inductive NodeType : Type :=
| ErrorNode | TextNode | DocumentNode | ElementNode
| CommentNode | DoctypeNode | RawNode.

Record Attribute : Type := mkAttribute {
  Namespace : string;
  Key : string;
  Val : string
}.

Record Node : Type := mkNode {
  Parent : option ptr;
  FirstChild : option ptr;
  LastChild : option ptr;
  PrevSibling : option ptr;
  NextSibling : option ptr;
  Type_ : NodeType;
  Data : string;
  Attr : list Attribute
}.

End html.

Definition heap : Type := ptr → html.Node.

(** ** internal.go *)

(** [func(node *html.Node) bool]; a nil function value is [None] in a
    filter slice. The function is only ever applied to a non-nil node. *)
Definition predicate : Type := ptr → bool.

Module filterNodesConfig.

Record t : Type := mk {
  Node : option ptr;
  Filters : list (option predicate);
  Find : bool
}.

End filterNodesConfig.

Definition copyValidFilters (input : list (option predicate)) : list (option predicate) :=
  foldl (fun output filter =>
           match filter with
           | Some _ => output ++ [filter]
           | None => output
           end) [] input.

(** The loop at the head of the inner closure:
    [for filter == nil && len(config.Filters) != 0]. *)
Fixpoint next_filter (Filters : list (option predicate)) : option predicate * list (option predicate) :=
  match Filters with
  | [] => (None, [])
  | filter :: Filters' =>
      match filter with
      | Some _ => (filter, Filters')
      | None => next_filter Filters'
      end
  end.

(** [copy(result[j:], result[j+1:]); result[len(result)-1] = nil;
    result = result[:len(result)-1]] *)
Definition remove_at (j : nat) (result : list ptr) : list ptr :=
  delete j result.

(** [for j := finish; j < len(result); j++]: a removal is followed by
    [j--], which the loop's [j++] undoes, so [j] stays in place. Each
    round either advances [j] or shortens [result]; [k] bounds the rounds. *)
Fixpoint dedup_j (k : nat) (i j : nat) (result : list ptr) : outcome (list ptr) :=
  match k with
  | 0 => OutOfFuel
  | S k' =>
      if decide (j < length result) then
        match result !! i, result !! j with
        | Some x, Some y =>
            if decide (x ≠ y) then dedup_j k' i (S j) result
            else dedup_j k' i j (remove_at j result)
        | _, _ => Panic
        end
      else Ret result
  end.

(** [for i := start; i < finish; i++] *)
Fixpoint dedup_i (k : nat) (i finish : nat) (result : list ptr) : outcome (list ptr) :=
  match k with
  | 0 => OutOfFuel
  | S k' =>
      if decide (i < finish) then
        result ← dedup_j (S (length result)) i finish result;
        dedup_i k' (S i) finish result
      else Ret result
  end.

Definition dedup (start finish : nat) (result : list ptr) : outcome (list ptr) :=
  dedup_i (S (finish - start)) start finish result.

Section traversal.

Variable h : heap.

(** [for c := first; c != nil; c = c.NextSibling { body }] *)
Fixpoint each_sibling (k : nat) (body : ptr → list ptr → outcome (list ptr))
    (c : option ptr) (result : list ptr) : outcome (list ptr) :=
  match k with
  | 0 => OutOfFuel
  | S k' =>
      match c with
      | None => Ret result
      | Some c' =>
          result ← body c' result;
          each_sibling k' body (html.NextSibling (h c')) result
      end
  end.

(** The recursive closure [fn] of [filterNodes]; the captured slice
    [result] is threaded through. *)
Fixpoint fn (fuel : nat) (config : filterNodesConfig.t) (result : list ptr)
    {struct fuel} : outcome (list ptr) :=
  match fuel with
  | 0 => OutOfFuel
  | S fuel' =>
      match filterNodesConfig.Node config with
      | None => Ret result
      | Some n =>
          if filterNodesConfig.Find config && negb (length result =? 0) then Ret result
          else if length (filterNodesConfig.Filters config) =? 0 then Ret (result ++ [n])
          else
            let start := length result in
            result ←
              (let '(filter, Filters') := next_filter (filterNodesConfig.Filters config) in
               if match filter with Some f => negb (f n) | None => false end
               then Ret result
               else if length Filters' =? 0
               then fn fuel' (filterNodesConfig.mk (Some n) Filters' (filterNodesConfig.Find config)) result
               else each_sibling fuel'
                      (fun c result =>
                         fn fuel' (filterNodesConfig.mk (Some c) Filters' (filterNodesConfig.Find config)) result)
                      (html.FirstChild (h n)) result);
            let finish := length result in
            each_sibling fuel'
              (fun c result =>
                 result ← fn fuel' (filterNodesConfig.mk (Some c) (filterNodesConfig.Filters config)
                                      (filterNodesConfig.Find config)) result;
                 dedup start finish result)
              (html.FirstChild (h n)) result
      end
  end.

Definition filterNodes (fuel : nat) (config : filterNodesConfig.t) : outcome (list ptr) :=
  fn fuel (filterNodesConfig.mk (filterNodesConfig.Node config)
             (copyValidFilters (filterNodesConfig.Filters config))
             (filterNodesConfig.Find config)) [].

End traversal.


(** ** The node handle of the package *)

(** Go's [int] on a 64-bit platform: arithmetic wraps around. *)
Definition int_min : Z := (- 2 ^ 63)%Z.
Definition int_max : Z := (2 ^ 63 - 1)%Z.

Definition int_wrap (z : Z) : Z := ((z - int_min) mod 2 ^ 64 + int_min)%Z.

Definition is_int (z : Z) : Prop := (int_min ≤ z ≤ int_max)%Z.

(** [type Node struct { Data *html.Node; Depth int; Match *Node }] *)
Inductive Node : Type := mkNode {
  Data : option ptr;
  Depth : Z;
  Match : option Node
}.

(** Every [Depth] stored in a handle, and in the handles it points to, is
    an [int]. *)
Fixpoint Node_ok (n : Node) : Prop :=
  is_int (Depth n) ∧
  match Match n with
  | Some m => Node_ok m
  | None => True
  end.

Section handle.

Variable h : heap.

Definition Node_Attr (n : Node) : list html.Attribute :=
  match Data n with
  | None => []
  | Some d => html.Attr (h d)
  end.

Definition Node_Parent (n : Node) : Node :=
  let n :=
    match Data n with
    | Some d => mkNode (html.Parent (h d)) (Depth n) (Match n)
    | None => n
    end in
  mkNode (Data n) (int_wrap (Depth n - 1)) (Match n).

Definition Node_FirstChild (n : Node) : Node :=
  let n :=
    match Data n with
    | Some d => mkNode (html.FirstChild (h d)) (Depth n) (Match n)
    | None => n
    end in
  mkNode (Data n) (int_wrap (Depth n + 1)) (Match n).

Definition Node_LastChild (n : Node) : Node :=
  let n :=
    match Data n with
    | Some d => mkNode (html.LastChild (h d)) (Depth n) (Match n)
    | None => n
    end in
  mkNode (Data n) (int_wrap (Depth n + 1)) (Match n).

Definition Node_PrevSibling (n : Node) : Node :=
  match Data n with
  | Some d => mkNode (html.PrevSibling (h d)) (Depth n) (Match n)
  | None => n
  end.

Definition Node_NextSibling (n : Node) : Node :=
  match Data n with
  | Some d => mkNode (html.NextSibling (h d)) (Depth n) (Match n)
  | None => n
  end.

Definition Node_MatchDepth (n : Node) : Z :=
  let d := Depth n in
  match Match n with
  | Some m => int_wrap (d - Depth m)
  | None => d
  end.

Section attributes.

(** The package's [getAttrVal] is defined outside the files at hand; the
    method below is settled for whatever it computes. *)
Variable getAttrVal : string → string → list html.Attribute → string.

Definition Node_GetAttrVal (n : Node) (namespace key : string)
    (attributes : list html.Attribute) : string :=
  getAttrVal namespace key (Node_Attr n).

End attributes.

End handle.

(** [Node{}] *)
Definition Node_zero : Node := mkNode None 0 None.

(** An error value of Go as [errors.New] builds it: a pointer to an error
    object, with the text that the object reports. Two error values are
    the same value when they point to the same object, whatever the text. *)
Record error : Type := mkError {
  err_ptr : nat;
  err_text : string
}.

(** [errors.New]: each call allocates an error object of its own, so that
    it returns a distinct error value even if the text is identical.
    [next] counts the error objects allocated so far: the objects in
    existence are those with a pointer below it. *)
Definition errors_New (text : string) (next : nat) : error * nat :=
  (mkError next text, S next).

Section parse.

(** [io.Reader]; the external parser [html.Parse], which yields the store
    its nodes live in and may allocate error objects on the way; and the
    package's [findNodeRaw], defined outside the files at hand. *)
Variable Reader : Type.
Variable html_Parse : Reader → nat → heap * option ptr * option error * nat.
Variable findNodeRaw : heap → option ptr → list (option (Node → bool)) → Node * bool.

Definition Parse (r : Reader) (filters : list (option (Node → bool))) (next : nat)
    : Node * option error * nat :=
  let '(hp, node, err, next) := html_Parse r next in
  match err with
  | Some err => (Node_zero, Some err, next)
  | None =>
      let '(node, ok) := findNodeRaw hp node filters in
      if negb ok then
        let '(err, next) := errors_New "htmlutil.Parse no match" next in
        (Node_zero, Some err, next)
      else (node, None, next)
  end.

End parse.

(** ** Trees

    The shape a pointer graph has when it is a tree: the first-child and
    next-sibling pointers below a node unfold to a finite tree of
    pointers, and no pointer occurs in it twice. *)

Inductive tree : Type := T (p : ptr) (kids : list tree).

Definition root (t : tree) : ptr := match t with T p _ => p end.
Definition children (t : tree) : list tree := match t with T _ kids => kids end.

Fixpoint size (t : tree) : nat :=
  match t with T _ kids => S (sum_list (size <$> kids)) end.

(** The nodes of a tree in document order. *)
Fixpoint nodes (t : tree) : list ptr :=
  match t with T p kids => p :: (kids ≫= nodes) end.

(** A node's subtree, the node included, and its proper descendants. *)
Fixpoint subtrees (t : tree) : list tree :=
  match t with T _ kids => t :: (kids ≫= subtrees) end.

Definition proper_subtrees (t : tree) : list tree := children t ≫= subtrees.

Inductive siblings (h : heap) : option ptr → list tree → Prop :=
| siblings_nil : siblings h None []
| siblings_cons c kids ts :
    siblings h (html.FirstChild (h c)) kids →
    siblings h (html.NextSibling (h c)) ts →
    siblings h (Some c) (T c kids :: ts).

Definition shape (h : heap) (p : ptr) (t : tree) : Prop :=
  root t = p ∧ siblings h (html.FirstChild (h p)) (children t).

Definition is_tree (h : heap) (p : ptr) (t : tree) : Prop :=
  shape h p t ∧ NoDup (nodes t).

(** The non-nil filters of a slice, in order. *)
Definition valid (fs : list (option predicate)) : list predicate := omap id fs.

(** The order in which the traversal appends nodes when nothing is ever
    removed: the chain-advancing descent first, then the descent into the
    children with the chain as it was. *)
Fixpoint discovered (t : tree) (fs : list predicate) {struct t} : list ptr :=
  match t with
  | T n kids =>
      match fs with
      | [] => [n]
      | f :: rest =>
          (if f n then
             match rest with
             | [] => [n]
             | _ => kids ≫= (fun c => discovered c rest)
             end
           else [])
          ++ (kids ≫= (fun c => discovered c fs))
      end
  end.

(** Keep the first occurrence of every element. *)
Fixpoint dedup_first (l : list ptr) : list ptr :=
  match l with
  | [] => []
  | x :: l' => x :: filter (fun y => y ≠ x) (dedup_first l')
  end.

(** What the collecting traversal returns below a node, as a function of
    the tree. *)
Fixpoint collect (t : tree) (fs : list predicate) {struct t} : list ptr :=
  match t with
  | T n kids =>
      match fs with
      | [] => [n]
      | f :: rest =>
          let advanced :=
            if f n then
              match rest with
              | [] => [n]
              | _ => kids ≫= (fun c => collect c rest)
              end
            else [] in
          advanced ++ filter (fun y => y ∉ advanced) (kids ≫= (fun c => collect c fs))
      end
  end.

Definition found (find : bool) (t : tree) (fs : list predicate) : list ptr :=
  if find then take 1 (collect t fs) else collect t fs.

(** The effect of one call of [fn] on the accumulated slice. *)
Definition visit (find : bool) (fs : list predicate) (result : list ptr) (t : tree) : list ptr :=
  if find && negb (length result =? 0) then result
  else result ++ found find t fs.

(** The effect of one round of the loop over the children: a call of [fn]
    followed by the removal loops, in a frame that started with [pre] and
    where the chain-advancing descent appended [adv]. *)
Definition visit_dedup (pre adv : list ptr) (find : bool) (fs : list predicate)
    (result : list ptr) (t : tree) : list ptr :=
  pre ++ adv
  ++ filter (fun y => y ∉ adv) (drop (length (pre ++ adv)) (visit find fs result t)).

(** A chain [m1, ..., mk] for the filters [p1, ..., pk] that starts at
    [m1] and ends in the node [n = mk]: every [mi] satisfies [pi] and
    every [m(i+1)] is a proper descendant of [mi]. *)
Inductive chain : list predicate → tree → ptr → Prop :=
| chain_last f m :
    f (root m) = true → chain [f] m (root m)
| chain_next f g rest m m' n :
    f (root m) = true →
    m' ∈ proper_subtrees m →
    chain (g :: rest) m' n →
    chain (f :: g :: rest) m n.

(** ** A sample document

    [<table><tbody><tr><td>a</td></tr><tr><td>b</td></tr></tbody></table>]
    as the parser lays it out below [body]: 1 table, 2 tbody, 3 and 6 tr,
    4 and 7 td, 5 and 8 text. *)

Definition elem (tag : string) (parent first last prev next : option ptr) : html.Node :=
  html.mkNode parent first last prev next html.ElementNode tag [].

Definition text (s : string) (parent : option ptr) : html.Node :=
  html.mkNode parent None None None None html.TextNode s [].

Definition table_doc : heap := fun p =>
  match p with
  | 1 => elem "table" None (Some 2) (Some 2) None None
  | 2 => elem "tbody" (Some 1) (Some 3) (Some 6) None None
  | 3 => elem "tr" (Some 2) (Some 4) (Some 4) None (Some 6)
  | 4 => elem "td" (Some 3) (Some 5) (Some 5) None None
  | 5 => text "a" (Some 4)
  | 6 => elem "tr" (Some 2) (Some 7) (Some 7) (Some 3) None
  | 7 => elem "td" (Some 6) (Some 8) (Some 8) None None
  | 8 => text "b" (Some 7)
  | _ => html.mkNode None None None None None html.ErrorNode "" []
  end.

Definition table_tree : tree :=
  T 1 [T 2 [T 3 [T 4 [T 5 []]]; T 6 [T 7 [T 8 []]]]].

Definition is_tag (hp : heap) (tag : string) : predicate := fun p =>
  match html.Type_ (hp p) with
  | html.ElementNode => bool_decide (html.Data (hp p) = tag)
  | _ => false
  end.

Definition is_text (hp : heap) : predicate := fun p =>
  match html.Type_ (hp p) with
  | html.TextNode => true
  | _ => false
  end.

(** The handle of the first row, two levels below the start of a query and
    one level below the [tbody] that was matched last. *)
Definition tbody_handle : Node := mkNode (Some 2) 1 None.
Definition row_handle : Node := mkNode (Some 3) 2 (Some tbody_handle).

(** A handle at the largest depth an [int] can hold, and the same handle
    with a back-reference one level above the start of its query. *)
Definition deepest_handle : Node := mkNode None int_max None.
Definition deepest_match_handle : Node :=
  mkNode None int_max (Some (mkNode None (-1) None)).

(** A reader that yields a document in which nothing matches, or fails
    with an error object that it allocates, of a text of its choosing. *)
Inductive sample_reader : Type :=
| reads_table
| fails_with (text : string).

Definition sample_Parse (r : sample_reader) (next : nat)
    : heap * option ptr * option error * nat :=
  match r with
  | reads_table => (table_doc, Some 1, None, next)
  | fails_with text => (table_doc, None, Some (mkError next text), S next)
  end.

Definition sample_findNodeRaw (hp : heap) (node : option ptr)
    (filters : list (option (Node → bool))) : Node * bool :=
  match filters with
  | [] => (mkNode node 0 None, true)
  | _ => (Node_zero, false)
  end.

(** ** The rest of internal.go and of the handle *)

(** A run that does not panic and whose result, when the fuel lasts,
    satisfies [P]. *)
Definition returns {A : Type} (P : A → Prop) (o : outcome A) : Prop :=
  match o with
  | Ret a => P a
  | OutOfFuel => True
  | Panic => False
  end.

Section rest.

Variable h : heap.

(** [for node := first; node != nil; node = node.NextSibling { body }]
    over a state of any type. *)
Fixpoint for_siblings {S : Type} (k : nat) (body : ptr → S → outcome S)
    (c : option ptr) (s : S) : outcome S :=
  match k with
  | 0 => OutOfFuel
  | S k' =>
      match c with
      | None => Ret s
      | Some c' =>
          s ← body c' s;
          for_siblings k' body (html.NextSibling (h c')) s
      end
  end.

Fixpoint encodeText (fuel : nat) (node : option ptr) : outcome (list Byte.byte) :=
  match fuel with
  | 0 => OutOfFuel
  | S fuel' =>
      match node with
      | None => Ret []
      | Some n =>
          match html.Type_ (h n) with
          | html.TextNode => Ret (String.list_byte_of_string (html.Data (h n)))
          | _ =>
              for_siblings fuel'
                (fun node b => below ← encodeText fuel' (Some node); Ret (b ++ below))
                (html.FirstChild (h n)) []
          end
      end
  end.

Definition Node_Type (n : Node) : html.NodeType :=
  match Data n with
  | Some d => html.Type_ (h d)
  | None => html.ErrorNode
  end.

(** [n.Data.Data] dereferences [n.Data]: a nil [Data] there is a panic. *)
Definition Node_Tag (n : Node) : outcome string :=
  match Node_Type n with
  | html.ElementNode =>
      match Data n with
      | Some d => Ret (html.Data (h d))
      | None => Panic
      end
  | _ => Ret ""
  end.

(** [for child := n.FirstChild(); child.Data != nil;
    child = child.NextSibling() { children = append(children, child) }] *)
Fixpoint Children_loop (k : nat) (child : Node) (children : list Node) : outcome (list Node) :=
  match k with
  | 0 => OutOfFuel
  | S k' =>
      match Data child with
      | None => Ret children
      | Some _ => Children_loop k' (Node_NextSibling h child) (children ++ [child])
      end
  end.

Definition Node_Children (fuel : nat) (n : Node) : outcome (list Node) :=
  match Data n with
  | None => Ret []
  | Some _ => Children_loop fuel (Node_FirstChild h n) []
  end.

(** A sequence of calls of the navigational accessors. *)
Inductive move : Type :=
| to_Parent | to_FirstChild | to_LastChild | to_PrevSibling | to_NextSibling.

Definition go (n : Node) (m : move) : Node :=
  match m with
  | to_Parent => Node_Parent h n
  | to_FirstChild => Node_FirstChild h n
  | to_LastChild => Node_LastChild h n
  | to_PrevSibling => Node_PrevSibling h n
  | to_NextSibling => Node_NextSibling h n
  end.

Definition walk (n : Node) (path : list move) : Node := foldl go n path.

(** The text below a node of a tree: the data of a text node, and for any
    other node the text below its children, in order. *)
Fixpoint text_below (t : tree) : list Byte.byte :=
  match t with
  | T n kids =>
      match html.Type_ (h n) with
      | html.TextNode => String.list_byte_of_string (html.Data (h n))
      | _ => kids ≫= text_below
      end
  end.

(** Text nodes have no children, as in every tree that the parser builds. *)
Definition text_leaves (t : tree) : Prop :=
  Forall (fun m => html.Type_ (h (root m)) = html.TextNode → children m = [])
         (subtrees t).

End rest.

(** The levels a sequence of moves descends, counted without wrap-around. *)
Definition levels (path : list move) : Z :=
  foldr (fun m z =>
           match m with
           | to_Parent => (z - 1)%Z
           | to_FirstChild | to_LastChild => (z + 1)%Z
           | to_PrevSibling | to_NextSibling => z
           end) 0%Z path.

(** The siblings from a node on, when the next-sibling pointers end. *)
Inductive sibling_list (h : heap) : option ptr → list ptr → Prop :=
| sibling_list_nil : sibling_list h None []
| sibling_list_cons c cs :
    sibling_list h (html.NextSibling (h c)) cs →
    sibling_list h (Some c) (c :: cs).

(** A node that is its own first child. *)
Definition knot : heap := fun p =>
  html.mkNode None (Some p) (Some p) None None html.ElementNode "a" [].

(** * Properties *)

Example table_rows :
  filterNodes table_doc 10
    (filterNodesConfig.mk (Some 1)
       [Some (is_tag table_doc "tbody"); None; Some (is_tag table_doc "tr")] false)
  = Ret [3; 6].
Proof. vm_compute. reflexivity. Qed.

Example table_everything_below :
  filterNodes table_doc 10
    (filterNodesConfig.mk (Some 1) [Some (fun _ => true); Some (fun _ => true)] false)
  = Ret [2; 3; 4; 5; 6; 7; 8].
Proof. vm_compute. reflexivity. Qed.

Example table_collect :
  collect table_tree [fun _ => true; fun _ => true] = [2; 3; 4; 5; 6; 7; 8]
  ∧ discovered table_tree [fun _ => true; fun _ => true]
    = [2; 3; 4; 5; 6; 7; 8; 3; 4; 5; 6; 7; 8; 4; 5; 5; 7; 8; 8].
Proof. vm_compute. split; reflexivity. Qed.

Ltac config_simpl :=
  cbn [filterNodesConfig.Node filterNodesConfig.Find filterNodesConfig.Filters].

(** ** The removal loops *)

Lemma filter_keeps_all {A} (P : A → Prop) `{∀ x, Decision (P x)} (l : list A) :
  (∀ x, x ∈ l → P x) → filter P l = l.
Proof.
  induction l as [|x l IH]; intros Hall; [done|].
  rewrite filter_cons_True by (apply Hall; left).
  f_equal. apply IH. intros y Hy. apply Hall. by right.
Qed.

Lemma dedup_j_spec (post : list ptr) :
  ∀ k i j x (front : list ptr),
    length front = j → front !! i = Some x → length post < k →
    dedup_j k i j (front ++ post) = Ret (front ++ filter (fun y => y ≠ x) post).
Proof.
  induction post as [|y post IH]; intros k i j x front Hj Hi Hk.
  - destruct k as [|k]; [simpl in Hk; lia|].
    simpl. rewrite decide_False; [done|].
    rewrite length_app. simpl. lia.
  - destruct k as [|k]; [simpl in Hk; lia|].
    simpl in Hk. simpl.
    rewrite decide_True by (rewrite length_app; simpl; lia).
    rewrite (lookup_app_l_Some _ _ _ _ Hi).
    rewrite lookup_app_r by lia.
    replace (j - length front) with 0 by lia. simpl.
    destruct (decide (x ≠ y)) as [Hne|Heq].
    + rewrite (cons_middle y front post), app_assoc.
      rewrite (IH k i (S j) x (front ++ [y])).
      * rewrite filter_cons_True by congruence.
        by rewrite <- app_assoc.
      * rewrite length_app. simpl. lia.
      * by apply lookup_app_l_Some.
      * lia.
    + assert (x = y) as -> by (destruct (decide (x = y)); [done|contradiction]).
      unfold remove_at.
      replace (delete j (front ++ y :: post)) with (front ++ post).
      * rewrite (IH k i j y front) by (done || lia).
        rewrite filter_cons_False; [done|]. intros Hc. by apply Hc.
      * subst j. rewrite delete_middle. done.
Qed.

Lemma dedup_i_spec (todo : list ptr) :
  ∀ k i finish (pre post : list ptr),
    length pre = i → i + length todo = finish → length todo < k →
    dedup_i k i finish (pre ++ todo ++ post)
    = Ret (pre ++ todo ++ filter (fun y => y ∉ todo) post).
Proof.
  induction todo as [|x todo IH]; intros k i finish pre post Hi Hf Hk.
  - destruct k as [|k]; [simpl in Hk; lia|].
    simpl in *. rewrite decide_False by lia.
    f_equal. f_equal. symmetry. apply filter_keeps_all.
    intros y _. apply not_elem_of_nil.
  - destruct k as [|k]; [simpl in Hk; lia|].
    simpl in Hf, Hk. cbn [dedup_i]. rewrite decide_True by lia.
    assert (pre ++ (x :: todo) ++ post = (pre ++ x :: todo) ++ post) as Hsplit
      by (by rewrite <- app_assoc).
    rewrite Hsplit.
    rewrite (dedup_j_spec post _ i finish x (pre ++ x :: todo)).
    + cbn [mbind outcome_bind].
      replace ((pre ++ x :: todo) ++ filter (fun y => y ≠ x) post)
        with ((pre ++ [x]) ++ todo ++ filter (fun y => y ≠ x) post)
        by (rewrite <- !app_assoc; done).
      rewrite (IH k (S i) finish (pre ++ [x])).
      * rewrite <- !app_assoc. simpl. do 4 f_equal.
        rewrite list_filter_filter. apply list_filter_iff.
        intros y. rewrite not_elem_of_cons. tauto.
      * rewrite length_app. simpl. lia.
      * lia.
      * lia.
    + rewrite length_app. simpl. lia.
    + rewrite lookup_app_r by lia.
      replace (i - length pre) with 0 by lia. done.
    + rewrite !length_app. simpl. lia.
Qed.

Lemma dedup_frame (pre mid post : list ptr) :
  dedup (length pre) (length (pre ++ mid)) (pre ++ mid ++ post)
  = Ret (pre ++ mid ++ filter (fun y => y ∉ mid) post).
Proof.
  unfold dedup. rewrite length_app.
  apply dedup_i_spec; lia.
Qed.

(** ** Discarding the nil filters *)

Lemma copyValidFilters_valid (input : list (option predicate)) :
  copyValidFilters input = Some <$> valid input.
Proof.
  unfold copyValidFilters.
  enough (∀ output, foldl (fun output filter =>
            match filter with Some _ => output ++ [filter] | None => output end)
            output input = output ++ (Some <$> valid input)) as H by apply (H []).
  induction input as [|[f|] input IH]; intros output; simpl.
  - by rewrite app_nil_r.
  - rewrite IH. by rewrite <- app_assoc.
  - apply IH.
Qed.

Lemma valid_Some (fs : list predicate) : valid (Some <$> fs) = fs.
Proof. unfold valid. induction fs as [|f fs IH]; [done|]. cbn. f_equal. exact IH. Qed.

Lemma copyValidFilters_idemp (input : list (option predicate)) :
  copyValidFilters (copyValidFilters input) = copyValidFilters input.
Proof. by rewrite !copyValidFilters_valid, valid_Some. Qed.

Lemma copyValidFilters_filter (input : list (option predicate)) :
  copyValidFilters input = filter (fun f => is_Some f) input.
Proof.
  rewrite copyValidFilters_valid. unfold valid.
  induction input as [|[f|] input IH]; [done| |].
  - rewrite filter_cons_True by eauto. cbn. f_equal. exact IH.
  - rewrite filter_cons_False by (by intros [? ?]). exact IH.
Qed.

(** ** Trees and the loops over siblings *)

Lemma tree_forall_ind (P : tree → Prop) :
  (∀ p kids, Forall P kids → P (T p kids)) → ∀ t, P t.
Proof.
  intros HT. fix IH 1. intros [p kids]. apply HT.
  induction kids as [|c kids IHkids]; constructor; [apply IH|exact IHkids].
Qed.

Lemma size_pos (t : tree) : 1 ≤ size t.
Proof. destruct t; simpl; lia. Qed.

Lemma kids_size (kids : list tree) (t : tree) :
  t ∈ kids → size t ≤ sum_list (size <$> kids).
Proof.
  induction kids as [|c kids IH]; intros Hin; [by apply elem_of_nil in Hin|].
  apply elem_of_cons in Hin as [->|Hin]; cbn; [lia|].
  specialize (IH Hin). lia.
Qed.

Lemma kids_length (kids : list tree) : length kids ≤ sum_list (size <$> kids).
Proof.
  induction kids as [|c kids IH]; cbn; [lia|].
  pose proof (size_pos c). lia.
Qed.

Lemma siblings_shape (h : heap) (c : option ptr) (ts : list tree) :
  siblings h c ts → ∀ t, t ∈ ts → shape h (root t) t.
Proof.
  induction 1 as [|c kids ts Hkids _ _ IH]; intros t Hin.
  - by apply elem_of_nil in Hin.
  - apply elem_of_cons in Hin as [->|Hin]; [by split|by apply IH].
Qed.

Lemma each_sibling_spec (h : heap) (body : ptr → list ptr → outcome (list ptr))
    (G : list ptr → tree → list ptr) (I : list ptr → Prop)
    (c : option ptr) (ts : list tree) :
  siblings h c ts →
  (∀ t r, t ∈ ts → I r → body (root t) r = Ret (G r t) ∧ I (G r t)) →
  ∀ k r, length ts < k → I r →
    each_sibling h k body c r = Ret (foldl G r ts) ∧ I (foldl G r ts).
Proof.
  induction 1 as [|c kids ts _ _ Hts IH]; intros Hbody k r Hk Hr.
  - destruct k as [|k]; [simpl in Hk; lia|]. by split.
  - destruct k as [|k]; [simpl in Hk; lia|].
    simpl in Hk. cbn [each_sibling].
    destruct (Hbody (T c kids) r) as [Hrun Hinv]; [left|done|].
    simpl in Hrun. rewrite Hrun. cbn [mbind outcome_bind foldl].
    apply IH; [|lia|done].
    intros t r' Hin. apply Hbody. by right.
Qed.

(** ** The traversal, as a function of the tree *)

Lemma take_1_app {A} (l1 l2 : list A) :
  take 1 (l1 ++ l2) = match l1 with [] => take 1 l2 | _ => take 1 l1 end.
Proof. by destruct l1. Qed.

Lemma foldl_visit (find : bool) (fs : list predicate) (kids : list tree) :
  ∀ r, foldl (visit find fs) r kids
       = if find && negb (length r =? 0) then r
         else r ++ (if find then take 1 (kids ≫= (fun c => collect c fs))
                    else kids ≫= (fun c => collect c fs)).
Proof.
  induction kids as [|c kids IH]; intros r.
  - cbn. destruct find, r; cbn; by rewrite ?app_nil_r.
  - cbn [foldl]. rewrite IH. unfold visit, found.
    destruct find; cbn [andb].
    + destruct r as [|x r]; cbn; [|done].
      rewrite take_1_app.
      destruct (collect c fs) as [|y l]; cbn; done.
    + cbn. by rewrite <- app_assoc.
Qed.

Lemma filter_filter_same {A} (P : A → Prop) `{∀ x, Decision (P x)} (l : list A) :
  filter P (filter P l) = filter P l.
Proof.
  apply filter_keeps_all. intros x Hx. by apply list_elem_of_filter in Hx as [? _].
Qed.

Lemma foldl_visit_dedup_all (pre adv : list ptr) (fs : list predicate) (kids : list tree) :
  ∀ Y, foldl (visit_dedup pre adv false fs) (pre ++ adv ++ filter (fun y => y ∉ adv) Y) kids
       = pre ++ adv ++ filter (fun y => y ∉ adv) (Y ++ (kids ≫= (fun c => collect c fs))).
Proof.
  induction kids as [|c kids IH]; intros Y.
  - cbn. by rewrite app_nil_r.
  - cbn [foldl mbind list_bind].
    replace (visit_dedup pre adv false fs (pre ++ adv ++ filter (fun y => y ∉ adv) Y) c)
      with (pre ++ adv ++ filter (fun y => y ∉ adv) (Y ++ collect c fs)).
    + rewrite IH. by rewrite <- app_assoc.
    + unfold visit_dedup, visit, found. cbn [andb].
      do 2 f_equal.
      rewrite (app_assoc pre adv), <- (app_assoc (pre ++ adv)).
      rewrite drop_app_length.
      by rewrite !filter_app, filter_filter_same.
Qed.

Lemma foldl_visit_dedup_find (x : ptr) (adv : list ptr) (fs : list predicate)
    (kids : list tree) :
  foldl (visit_dedup [] (x :: adv) true fs) (x :: adv) kids = x :: adv.
Proof.
  induction kids as [|c kids IH]; [done|].
  cbn [foldl].
  replace (visit_dedup [] (x :: adv) true fs (x :: adv) c) with (x :: adv); [done|].
  unfold visit_dedup, visit. cbn [andb length Nat.eqb negb app drop].
  rewrite drop_all. cbn. by rewrite app_nil_r.
Qed.

Lemma foldl_visit_dedup_none (find : bool) (fs : list predicate) (kids : list tree) :
  ∀ pre r, foldl (visit_dedup pre [] find fs) (pre ++ r) kids
         = foldl (visit find fs) (pre ++ r) kids.
Proof.
  induction kids as [|c kids IH]; intros pre r; [done|].
  cbn [foldl].
  assert (∃ r', visit find fs (pre ++ r) c = pre ++ r') as [r' Hr'].
  { unfold visit. destruct (find && negb (length (pre ++ r) =? 0)).
    - by exists r.
    - exists (r ++ found find c fs). by rewrite app_assoc. }
  replace (visit_dedup pre [] find fs (pre ++ r) c) with (pre ++ r').
  - rewrite Hr'. apply IH.
  - unfold visit_dedup. rewrite Hr', app_nil_r. cbn [app].
    rewrite drop_app_length. f_equal. symmetry. apply filter_keeps_all.
    intros y _. apply not_elem_of_nil.
Qed.

(** The loop over the children that follows the chain-advancing descent. *)
Lemma foldl_visit_dedup (pre adv : list ptr) (find : bool) (fs : list predicate)
    (kids : list tree) :
  find && negb (length pre =? 0) = false →
  foldl (visit_dedup pre adv find fs) (pre ++ adv) kids
  = pre ++ (if find
            then match adv with
                 | [] => take 1 (kids ≫= (fun c => collect c fs))
                 | _ => adv
                 end
            else adv ++ filter (fun y => y ∉ adv) (kids ≫= (fun c => collect c fs))).
Proof.
  intros Hstop. destruct find.
  - destruct pre as [|p pre]; [|done]. cbn [app].
    destruct adv as [|x adv].
    + pose proof (foldl_visit_dedup_none true fs kids [] []) as H.
      cbn [app] in H. rewrite H. by rewrite foldl_visit.
    + apply foldl_visit_dedup_find.
  - pose proof (foldl_visit_dedup_all pre adv fs kids []) as H.
    rewrite filter_nil, app_nil_r in H. exact H.
Qed.

(** ** The code computes [visit] on a tree *)

Lemma fn_no_filters (h : heap) (fuel : nat) (p : ptr) (find : bool) (res : list ptr) :
  fn h (S fuel) (filterNodesConfig.mk (Some p) [] find) res
  = Ret (if find && negb (length res =? 0) then res else res ++ [p]).
Proof. cbn. by destruct (find && negb (length res =? 0)). Qed.

Lemma children_loop (h : heap) (fuel : nat) (find : bool) (fs : list predicate)
    (first : option ptr) (kids : list tree) (pre adv : list ptr) :
  (∀ t r, t ∈ kids →
     fn h fuel (filterNodesConfig.mk (Some (root t)) (Some <$> fs) find) r
     = Ret (visit find fs r t)) →
  siblings h first kids → length kids < fuel →
  each_sibling h fuel
    (fun c result =>
       result ← fn h fuel (filterNodesConfig.mk (Some c) (Some <$> fs) find) result;
       dedup (length pre) (length (pre ++ adv)) result)
    first (pre ++ adv)
  = Ret (foldl (visit_dedup pre adv find fs) (pre ++ adv) kids).
Proof.
  intros Hfn Hkids Hlen.
  eapply (each_sibling_spec h _ (visit_dedup pre adv find fs)
            (fun r => ∃ Y, r = pre ++ adv ++ Y)); [done| |done|].
  - intros t r Hin [Y ->]. rewrite (Hfn _ _ Hin). cbn [mbind outcome_bind].
    assert (∃ Y', visit find fs (pre ++ adv ++ Y) t = pre ++ adv ++ Y') as [Y' HY'].
    { unfold visit. destruct (find && negb (length (pre ++ adv ++ Y) =? 0)).
      - by exists Y.
      - exists (Y ++ found find t fs). by rewrite <- !app_assoc. }
    unfold visit_dedup. rewrite HY', dedup_frame.
    rewrite (app_assoc pre adv Y'), drop_app_length.
    split; [done|]. by eexists.
  - exists []. by rewrite app_nil_r.
Qed.

Lemma fn_visit (h : heap) :
  ∀ fuel t fs find res,
    shape h (root t) t → size t < fuel →
    fn h fuel (filterNodesConfig.mk (Some (root t)) (Some <$> fs) find) res
    = Ret (visit find fs res t).
Proof.
  induction fuel as [|fuel IH]; intros t fs find res [_ Hkids] Hsize; [lia|].
  destruct t as [n kids]. cbn [root children] in *. cbn [size] in Hsize.
  assert (length kids < fuel) as Hlen by (pose proof (kids_length kids); lia).
  assert (∀ gs t r, t ∈ kids →
            fn h fuel (filterNodesConfig.mk (Some (root t)) (Some <$> gs) find) r
            = Ret (visit find gs r t)) as Hfn.
  { intros gs t r Hin. apply IH.
    - by apply (siblings_shape _ _ _ Hkids).
    - pose proof (kids_size kids t Hin). lia. }
  cbn [fn]. config_simpl.
  unfold visit at 1.
  destruct (find && negb (length res =? 0)) eqn:Hstop; [done|].
  destruct fs as [|f rest].
  - cbn. unfold found. by destruct find.
  - cbn [fmap list_fmap length Nat.eqb next_filter].
    set (adv := if f n then
                  match rest with
                  | [] => [n]
                  | _ => kids ≫= (fun c => collect c rest)
                  end
                else []).
    set (adv' := if find then take 1 adv else adv).
    assert ((if negb (f n) then Ret res
             else if length (Some <$> rest) =? 0
                  then fn h fuel (filterNodesConfig.mk (Some n) (Some <$> rest) find) res
                  else each_sibling h fuel
                         (fun c result =>
                            fn h fuel (filterNodesConfig.mk (Some c) (Some <$> rest) find) result)
                         (html.FirstChild (h n)) res)
            = Ret (res ++ adv')) as ->.
    { subst adv' adv. destruct (f n); cbn [negb].
      - destruct rest as [|g rest].
        + cbn [fmap list_fmap length Nat.eqb].
          destruct fuel as [|fuel]; [lia|].
          rewrite fn_no_filters, Hstop. by destruct find.
        + cbn [fmap list_fmap length Nat.eqb].
          destruct (each_sibling_spec h
                      (fun c result =>
                         fn h fuel (filterNodesConfig.mk (Some c) (Some <$> (g :: rest)) find) result)
                      (visit find (g :: rest)) (fun _ => True)
                      (html.FirstChild (h n)) kids Hkids) with (k := fuel) (r := res)
            as [Hrun _]; [|done|done|].
          * intros t r Hin _. split; [|done]. by apply Hfn.
          * cbn [fmap list_fmap] in Hrun. rewrite Hrun.
            by rewrite foldl_visit, Hstop.
      - destruct find; by rewrite app_nil_r. }
    cbn [mbind outcome_bind].
    pose proof (children_loop h fuel find (f :: rest) (html.FirstChild (h n)) kids res adv')
      as Hloop.
    cbn [fmap list_fmap] in Hloop.
    rewrite Hloop; [|intros t r Hin; apply (Hfn (f :: rest) t r Hin)|done|done].
    rewrite (foldl_visit_dedup _ _ _ _ _ Hstop).
    f_equal. f_equal. unfold found. cbn [collect]. fold adv. subst adv'.
    destruct find; [|done].
    rewrite take_1_app.
    destruct adv as [|x adv]; [|done].
    cbn [take]. f_equal. symmetry. apply filter_keeps_all.
    intros y _. apply not_elem_of_nil.
Qed.

Lemma filterNodes_found (h : heap) (fuel : nat) (p : ptr) (t : tree)
    (fs : list (option predicate)) (find : bool) :
  shape h p t → size t < fuel →
  filterNodes h fuel (filterNodesConfig.mk (Some p) fs find) = Ret (found find t (valid fs)).
Proof.
  intros Hshape Hfuel. unfold filterNodes. config_simpl.
  rewrite copyValidFilters_valid.
  pose proof Hshape as [<- _].
  rewrite (fn_visit h fuel t (valid fs) find []) by done.
  unfold visit. by destruct find.
Qed.

(** ** First occurrences *)

Lemma elem_of_dedup_first (l : list ptr) (x : ptr) : x ∈ dedup_first l ↔ x ∈ l.
Proof.
  induction l as [|y l IH]; [done|].
  cbn [dedup_first]. rewrite !elem_of_cons, list_elem_of_filter, IH.
  destruct (decide (x = y)); tauto.
Qed.

Lemma NoDup_dedup_first (l : list ptr) : NoDup (dedup_first l).
Proof.
  induction l as [|y l IH]; [constructor|].
  cbn [dedup_first]. apply NoDup_cons. split.
  - rewrite list_elem_of_filter. intros [Hne _]. by apply Hne.
  - by apply NoDup_filter.
Qed.

Lemma dedup_first_app (l1 l2 : list ptr) :
  dedup_first (l1 ++ l2) = dedup_first l1 ++ filter (fun y => y ∉ l1) (dedup_first l2).
Proof.
  induction l1 as [|x l1 IH].
  - cbn [app dedup_first]. symmetry. apply filter_keeps_all.
    intros y _. apply not_elem_of_nil.
  - cbn [app dedup_first]. rewrite IH, filter_app. f_equal. f_equal.
    rewrite list_filter_filter. apply list_filter_iff.
    intros y. rewrite not_elem_of_cons. tauto.
Qed.

Lemma dedup_first_disjoint (l1 l2 : list ptr) :
  (∀ x, x ∈ l1 → x ∉ l2) →
  dedup_first (l1 ++ l2) = dedup_first l1 ++ dedup_first l2.
Proof.
  intros Hdisj. rewrite dedup_first_app. f_equal.
  apply filter_keeps_all. intros y Hy Hy1.
  rewrite elem_of_dedup_first in Hy. exact (Hdisj y Hy1 Hy).
Qed.

(** ** The traversal stays inside the tree *)

Lemma discovered_nodes : ∀ t fs x, x ∈ discovered t fs → x ∈ nodes t.
Proof.
  induction t as [n kids IH] using tree_forall_ind. intros fs x.
  assert (∀ gs, x ∈ kids ≫= (fun c => discovered c gs) → x ∈ kids ≫= nodes) as Hkids.
  { intros gs. rewrite !list_elem_of_bind. intros (c & Hx & Hc).
    exists c. split; [|done]. rewrite Forall_forall in IH. by apply (IH c Hc gs). }
  cbn [discovered nodes]. rewrite elem_of_cons.
  destruct fs as [|f rest].
  - rewrite list_elem_of_singleton. tauto.
  - rewrite elem_of_app. intros [Hadv|Hrec]; [|right; by apply (Hkids (f :: rest))].
    destruct (f n); [|by apply elem_of_nil in Hadv].
    destruct rest as [|g rest].
    + apply list_elem_of_singleton in Hadv. tauto.
    + right. by apply (Hkids (g :: rest)).
Qed.

Lemma forest_disjoint (c : tree) (kids : list tree) (fs gs : list predicate) :
  NoDup (nodes c ++ (kids ≫= nodes)) →
  ∀ x, x ∈ discovered c fs → x ∉ kids ≫= (fun c' => discovered c' gs).
Proof.
  intros Hnd x Hx Hkids.
  apply NoDup_app in Hnd as (_ & Hdisj & _).
  apply (Hdisj x); [by apply (discovered_nodes c fs)|].
  apply list_elem_of_bind in Hkids as (c' & Hx' & Hc').
  apply list_elem_of_bind. exists c'. split; [|done].
  by apply (discovered_nodes c' gs).
Qed.

Lemma forest_dedup_first (kids : list tree) (gs : list predicate) :
  Forall (fun c => ∀ fs, NoDup (nodes c) → collect c fs = dedup_first (discovered c fs)) kids →
  NoDup (kids ≫= nodes) →
  kids ≫= (fun c => collect c gs) = dedup_first (kids ≫= (fun c => discovered c gs)).
Proof.
  induction 1 as [|c kids Hc _ IH]; intros Hnd; [done|].
  rewrite !bind_cons in *.
  rewrite dedup_first_disjoint by (by apply forest_disjoint).
  apply NoDup_app in Hnd as (Hnd1 & _ & Hnd2).
  by rewrite (Hc gs Hnd1), (IH Hnd2).
Qed.

(** On a tree, the collecting traversal returns the nodes it discovers,
    each at its first discovery. *)
Lemma collect_dedup_first :
  ∀ t fs, NoDup (nodes t) → collect t fs = dedup_first (discovered t fs).
Proof.
  induction t as [n kids IH] using tree_forall_ind. intros fs Hnd.
  cbn [nodes] in Hnd. apply NoDup_cons in Hnd as [_ Hnd].
  destruct fs as [|f rest]; [done|].
  cbn [collect discovered]. rewrite dedup_first_app.
  rewrite <- (forest_dedup_first kids (f :: rest) IH Hnd).
  assert ((if f n then match rest with
                       | [] => [n]
                       | _ => kids ≫= (fun c => collect c rest)
                       end
           else [])
          = dedup_first (if f n then match rest with
                                     | [] => [n]
                                     | _ => kids ≫= (fun c => discovered c rest)
                                     end
                         else [])) as Hadv.
  { destruct (f n); [|done]. destruct rest as [|g rest]; [done|].
    by apply forest_dedup_first. }
  rewrite Hadv. f_equal. apply list_filter_iff.
  intros y. by rewrite elem_of_dedup_first.
Qed.

(** ** Membership in the result: chains of matches *)

Lemma forest_chain (kids : list tree) (gs : list predicate) (n : ptr) :
  Forall (fun c => ∀ fs, fs ≠ [] →
            n ∈ collect c fs ↔ ∃ m, m ∈ subtrees c ∧ chain fs m n) kids →
  gs ≠ [] →
  n ∈ kids ≫= (fun c => collect c gs) ↔ ∃ m, m ∈ kids ≫= subtrees ∧ chain gs m n.
Proof.
  intros IH Hgs. rewrite Forall_forall in IH. rewrite list_elem_of_bind. split.
  - intros (c & Hn & Hc). apply (IH c Hc gs Hgs) in Hn as (m & Hm & Hchain).
    exists m. split; [|done]. apply list_elem_of_bind. by exists c.
  - intros (m & Hm & Hchain). apply list_elem_of_bind in Hm as (c & Hm & Hc).
    exists c. split; [|done]. apply (IH c Hc gs Hgs). by exists m.
Qed.

Lemma collect_chain :
  ∀ t fs n, fs ≠ [] → n ∈ collect t fs ↔ ∃ m, m ∈ subtrees t ∧ chain fs m n.
Proof.
  induction t as [p kids IH] using tree_forall_ind. intros fs n Hfs.
  destruct fs as [|f rest]; [done|].
  assert (∀ gs, gs ≠ [] →
            n ∈ kids ≫= (fun c => collect c gs)
            ↔ ∃ m, m ∈ kids ≫= subtrees ∧ chain gs m n) as Hforest.
  { intros gs Hgs. apply forest_chain; [|done].
    eapply Forall_impl; [exact IH|]. intros c Hc gs'. apply Hc. }
  cbn [collect]. set (adv := if f p then _ else _).
  assert (n ∈ adv ↔ chain (f :: rest) (T p kids) n) as Hadv.
  { subst adv. split.
    - destruct (f p) eqn:Hf; [|by intros ?%elem_of_nil].
      destruct rest as [|g rest].
      + intros ->%list_elem_of_singleton. by apply (chain_last f (T p kids)).
      + intros (m & Hm & Hchain)%Hforest; [|done].
        by apply (chain_next f g rest (T p kids) m).
    - inversion 1 as [f' m Hf|f' g rest' m m' n' Hf Hm' Hchain]; subst.
      + cbn [root] in *. rewrite Hf. by apply list_elem_of_singleton.
      + cbn [root] in *. rewrite Hf. apply Hforest; [done|]. by exists m'. }
  rewrite elem_of_app, list_elem_of_filter, Hadv, (Hforest (f :: rest)) by done.
  change (subtrees (T p kids)) with (T p kids :: (kids ≫= subtrees)).
  split.
  - intros [Hchain|(_ & m & Hm & Hchain)].
    + exists (T p kids). split; [left|done].
    + exists m. split; [by right|done].
  - intros (m & Hm & Hchain). apply elem_of_cons in Hm as [->|Hm]; [by left|].
    destruct (decide (n ∈ adv)) as [Hin|Hnin]; [left; by apply Hadv|].
    right. split; [by rewrite <- Hadv|by exists m].
Qed.

(** ** The sample document is a tree *)

Lemma table_is_tree : is_tree table_doc 1 table_tree.
Proof.
  split.
  - split; [reflexivity|]. repeat constructor.
  - apply (bool_decide_unpack _). vm_compute. exact I.
Qed.

Example table_text_below_tbody :
  filterNodes table_doc 10
    (filterNodesConfig.mk (Some 1)
       [Some (is_tag table_doc "tbody");
        Some (is_text table_doc)] false)
  = Ret [5; 8].
Proof. vm_compute. reflexivity. Qed.

Example table_first_row :
  filterNodes table_doc 10
    (filterNodesConfig.mk (Some 1)
       [Some (is_tag table_doc "tbody"); Some (is_tag table_doc "tr")] true)
  = Ret [3].
Proof. vm_compute. reflexivity. Qed.

(** * The traversal *)

(** C1. On a tree, the collecting traversal returns no node twice: it
    returns the nodes in the order in which the traversal discovers them,
    each one at its first discovery, every later discovery dropped. *)
Theorem filterNodes_no_duplicates (h : heap) (p : ptr) (t : tree)
    (fs : list (option predicate)) (fuel : nat) :
  is_tree h p t → size t < fuel →
  ∃ result,
    filterNodes h fuel (filterNodesConfig.mk (Some p) fs false) = Ret result
    ∧ NoDup result
    ∧ result = dedup_first (discovered t (valid fs)).
Proof.
  intros [Hshape Hnd] Hfuel. exists (collect t (valid fs)).
  split; [exact (filterNodes_found h fuel p t fs false Hshape Hfuel)|].
  rewrite collect_dedup_first by done.
  split; [apply NoDup_dedup_first|done].
Qed.

Lemma filterNodes_no_duplicates_witness :
  ∃ result,
    filterNodes table_doc 10
      (filterNodesConfig.mk (Some 1) [Some (fun _ => true); None; Some (fun _ => true)] false)
    = Ret result
    ∧ NoDup result
    ∧ result = dedup_first (discovered table_tree
                              (valid [Some (fun _ => true); None; Some (fun _ => true)])).
Proof.
  apply (filterNodes_no_duplicates table_doc 1 table_tree _ 10).
  - exact table_is_tree.
  - vm_compute. lia.
Defined.

(** C2. On a tree and for a chain of filters that is not empty once the
    nil filters are gone, say [p1, ..., pk], a node [n] is in the result of
    the collecting traversal exactly when there are nodes [m1, ..., mk]
    with [m1] in the subtree of the start, every [mi] satisfying [pi],
    every [m(i+1)] a proper descendant of [mi], and [n = mk]. *)
Theorem filterNodes_chain (h : heap) (p : ptr) (t : tree)
    (fs : list (option predicate)) (fuel : nat) :
  is_tree h p t → size t < fuel → valid fs ≠ [] →
  ∃ result,
    filterNodes h fuel (filterNodesConfig.mk (Some p) fs false) = Ret result
    ∧ ∀ n, n ∈ result ↔ ∃ m1, m1 ∈ subtrees t ∧ chain (valid fs) m1 n.
Proof.
  intros [Hshape _] Hfuel Hfs. exists (collect t (valid fs)).
  split; [exact (filterNodes_found h fuel p t fs false Hshape Hfuel)|].
  intros n. by apply collect_chain.
Qed.

Lemma filterNodes_chain_witness :
  ∃ result,
    filterNodes table_doc 10
      (filterNodesConfig.mk (Some 1)
         [Some (is_tag table_doc "tbody"); None; Some (is_tag table_doc "td")] false)
    = Ret result
    ∧ ∀ n, n ∈ result ↔
           ∃ m1, m1 ∈ subtrees table_tree
                 ∧ chain (valid [Some (is_tag table_doc "tbody"); None;
                                 Some (is_tag table_doc "td")]) m1 n.
Proof.
  apply (filterNodes_chain table_doc 1 table_tree _ 10).
  - exact table_is_tree.
  - vm_compute. lia.
  - vm_compute. discriminate.
Defined.

(** With two filters: a node is returned exactly when it satisfies the
    second filter and lies, at any depth, properly below a node of the
    start's subtree that satisfies the first. *)
Corollary filterNodes_two_filters (h : heap) (p : ptr) (t : tree)
    (A B : predicate) (fuel : nat) :
  is_tree h p t → size t < fuel →
  ∃ result,
    filterNodes h fuel (filterNodesConfig.mk (Some p) [Some A; Some B] false) = Ret result
    ∧ ∀ n, n ∈ result ↔
           ∃ m m', m ∈ subtrees t ∧ A (root m) = true
                   ∧ m' ∈ proper_subtrees m ∧ root m' = n ∧ B n = true.
Proof.
  intros [Hshape _] Hfuel. exists (collect t [A; B]).
  split; [exact (filterNodes_found h fuel p t [Some A; Some B] false Hshape Hfuel)|].
  intros n. rewrite collect_chain by done. split.
  - intros (m & Hm & Hchain).
    inversion Hchain as [|? ? ? ? m' ? HA Hm' Hchain']; subst.
    inversion Hchain' as [? ? HB|]; subst.
    by exists m, m'.
  - intros (m & m' & Hm & HA & Hm' & <- & HB).
    exists m. split; [done|].
    apply (chain_next A B [] m m'); [done..|]. by apply chain_last.
Qed.

(** C3. In find mode the traversal returns at most one node, and what it
    returns is the first node of what the collecting traversal returns;
    [take 1] of an empty result is empty, so the collecting traversal is
    not empty when the find succeeds. *)
Theorem find_is_first_of_all (h : heap) (p : ptr) (t : tree)
    (fs : list (option predicate)) (fuel : nat) :
  is_tree h p t → size t < fuel →
  ∃ first all,
    filterNodes h fuel (filterNodesConfig.mk (Some p) fs true) = Ret first
    ∧ filterNodes h fuel (filterNodesConfig.mk (Some p) fs false) = Ret all
    ∧ length first ≤ 1
    ∧ first = take 1 all
    ∧ ∀ x, x ∈ first → head all = Some x.
Proof.
  intros [Hshape _] Hfuel.
  exists (take 1 (collect t (valid fs))), (collect t (valid fs)).
  split; [exact (filterNodes_found h fuel p t fs true Hshape Hfuel)|].
  split; [exact (filterNodes_found h fuel p t fs false Hshape Hfuel)|].
  split; [rewrite length_take; lia|]. split; [done|].
  intros x. destruct (collect t (valid fs)) as [|y l]; cbn.
  - by intros ?%elem_of_nil.
  - by intros ->%list_elem_of_singleton.
Qed.

Lemma find_is_first_of_all_witness :
  ∃ first all,
    filterNodes table_doc 10
      (filterNodesConfig.mk (Some 1) [Some (is_tag table_doc "tr")] true) = Ret first
    ∧ filterNodes table_doc 10
        (filterNodesConfig.mk (Some 1) [Some (is_tag table_doc "tr")] false) = Ret all
    ∧ length first ≤ 1
    ∧ first = take 1 all
    ∧ ∀ x, x ∈ first → head all = Some x.
Proof.
  apply (find_is_first_of_all table_doc 1 table_tree _ 10).
  - exact table_is_tree.
  - vm_compute. lia.
Defined.

(** C4, as stated, fails: with no filter the collecting traversal returns
    the start node alone. Below [table] (node 1) the sample document has
    seven more nodes, and none of them is returned. *)
Lemma no_filters_not_all_nodes :
  is_tree table_doc 1 table_tree
  ∧ size table_tree < 10
  ∧ filterNodes table_doc 10 (filterNodesConfig.mk (Some 1) [] false) = Ret [1]
  ∧ nodes table_tree = [1; 2; 3; 4; 5; 6; 7; 8]
  ∧ filterNodes table_doc 10 (filterNodesConfig.mk (Some 1) [] false)
    ≠ Ret (nodes table_tree).
Proof.
  split; [exact table_is_tree|].
  split; [vm_compute; lia|].
  split; [reflexivity|]. split; [reflexivity|].
  vm_compute. discriminate.
Qed.

(** C4, amended. With no filter, or with nil filters only, the traversal
    from a present start node returns exactly the start node, once, in
    either mode and whatever lies below it. *)
Theorem no_filters_only_start (h : heap) (fuel : nat) (p : ptr) (k : nat) (find : bool) :
  filterNodes h (S fuel) (filterNodesConfig.mk (Some p) (replicate k None) find) = Ret [p].
Proof.
  unfold filterNodes. config_simpl.
  rewrite copyValidFilters_valid.
  assert (valid (replicate k (@None predicate)) = []) as ->
    by (unfold valid; induction k as [|k IH]; [done|exact IH]).
  cbn [fmap list_fmap]. rewrite fn_no_filters. by destruct find.
Qed.

(** C5. A traversal from an absent start returns the empty sequence, for
    every filter chain and in either mode, and every navigational accessor
    of an absent handle returns an absent handle. *)
Theorem absent_stays_absent (h : heap) (fuel : nat) (fs : list (option predicate))
    (find : bool) (d : Z) (m : option Node) :
  filterNodes h (S fuel) (filterNodesConfig.mk None fs find) = Ret []
  ∧ Data (Node_Parent h (mkNode None d m)) = None
  ∧ Data (Node_FirstChild h (mkNode None d m)) = None
  ∧ Data (Node_LastChild h (mkNode None d m)) = None
  ∧ Data (Node_PrevSibling h (mkNode None d m)) = None
  ∧ Data (Node_NextSibling h (mkNode None d m)) = None.
Proof. repeat split. Qed.

(** C9. The traversal over a filter chain is the traversal over the chain
    with its nil filters removed, for every start, every mode and any
    amount of fuel. *)
Theorem nil_filters_skipped (h : heap) (fuel : nat) (start : option ptr)
    (fs : list (option predicate)) (find : bool) :
  filterNodes h fuel (filterNodesConfig.mk start fs find)
  = filterNodes h fuel (filterNodesConfig.mk start (filter (fun f => is_Some f) fs) find).
Proof.
  unfold filterNodes. config_simpl.
  by rewrite <- copyValidFilters_filter, copyValidFilters_idemp.
Qed.

(** A nil filter is neither a filter that always passes nor one that
    always fails: from the first row, the chain [nil, tr] finds the row
    itself, the chain [pass, tr] and the chain [fail, tr] find nothing. *)
Example nil_filter_is_no_pass :
  filterNodes table_doc 10
    (filterNodesConfig.mk (Some 3) [None; Some (is_tag table_doc "tr")] false)
  = Ret [3]
  ∧ filterNodes table_doc 10
      (filterNodesConfig.mk (Some 3) [Some (fun _ => true); Some (is_tag table_doc "tr")] false)
    = Ret []
  ∧ filterNodes table_doc 10
      (filterNodesConfig.mk (Some 3) [Some (fun _ => false); Some (is_tag table_doc "tr")] false)
    = Ret [].
Proof. vm_compute. repeat split. Qed.

(** It is [copyValidFilters] that makes a nil filter a no-op: the closure
    [fn] itself, handed a chain that still holds a nil filter, takes the
    chain for a non-empty one and walks the whole subtree. *)
Example nil_filter_inside_fn :
  fn table_doc 10 (filterNodesConfig.mk (Some 1) [None] false) []
  = Ret [1; 2; 3; 4; 5; 6; 7; 8]
  ∧ filterNodes table_doc 10 (filterNodesConfig.mk (Some 1) [None] false) = Ret [1].
Proof. vm_compute. split; reflexivity. Qed.

(** * The handle *)

Lemma int_wrap_is_int (z : Z) : is_int (int_wrap z).
Proof.
  unfold is_int, int_wrap, int_min, int_max.
  pose proof (Z.mod_pos_bound (z - - 2 ^ 63) (2 ^ 64)). lia.
Qed.

Lemma int_wrap_small (z : Z) : is_int z → int_wrap z = z.
Proof.
  unfold is_int, int_wrap, int_min, int_max. intros Hz.
  rewrite Z.mod_small by lia. lia.
Qed.

Lemma int_wrap_congruent (z : Z) : ((int_wrap z - z) mod 2 ^ 64 = 0)%Z.
Proof.
  unfold int_wrap, int_min.
  rewrite (Z.mod_eq (z - - 2 ^ 63) (2 ^ 64)) by lia.
  replace (z - - 2 ^ 63 - 2 ^ 64 * ((z - - 2 ^ 63) `div` 2 ^ 64) + - 2 ^ 63 - z)%Z
    with (- ((z - - 2 ^ 63) `div` 2 ^ 64) * 2 ^ 64)%Z by lia.
  apply Z.mod_mul. lia.
Qed.

Lemma int_wrap_succ_pred (z : Z) : is_int z → int_wrap (int_wrap (z + 1) - 1) = z.
Proof.
  unfold is_int, int_min, int_max. intros Hz.
  destruct (decide (z = 2 ^ 63 - 1)%Z) as [->|Hne].
  - vm_compute. reflexivity.
  - rewrite (int_wrap_small (z + 1)) by (unfold is_int, int_min, int_max; lia).
    replace (z + 1 - 1)%Z with z by lia.
    apply int_wrap_small. unfold is_int, int_min, int_max. lia.
Qed.

(** C7, as stated, fails: without a back-reference, [MatchDepth] is the
    handle's own depth, not 0; and with one, the difference is taken in
    Go's [int] arithmetic, which is not the difference of the two depths
    when that does not fit an [int]. *)
Lemma MatchDepth_without_match :
  (Match (mkNode (Some 1) 3 None) = None
   ∧ Node_MatchDepth (mkNode (Some 1) 3 None) = 3%Z
   ∧ Node_MatchDepth (mkNode (Some 1) 3 None) ≠ 0%Z)
  ∧ (Node_ok deepest_match_handle
     ∧ Node_MatchDepth deepest_match_handle = int_min
     ∧ Node_MatchDepth deepest_match_handle ≠ (int_max - -1)%Z).
Proof.
  split; [repeat split; discriminate|].
  split; [unfold Node_ok, is_int; vm_compute; repeat split; discriminate|].
  split; [reflexivity|]. vm_compute. discriminate.
Qed.

(** C7, amended. With a back-reference, [MatchDepth] is the handle's depth
    minus the depth of the back-reference, in Go's [int] arithmetic: an
    [int] that differs from the difference by a multiple of 2^64, hence the
    difference itself whenever that is an [int]. Without a back-reference
    it is the handle's own depth. *)
Theorem MatchDepth_difference (n : Node) :
  Node_ok n →
  is_int (Node_MatchDepth n)
  ∧ match Match n with
    | Some m =>
        ((Node_MatchDepth n - (Depth n - Depth m)) mod 2 ^ 64 = 0)%Z
        ∧ (is_int (Depth n - Depth m) → Node_MatchDepth n = (Depth n - Depth m)%Z)
    | None => Node_MatchDepth n = Depth n
    end.
Proof.
  destruct n as [data d [m|]]; unfold Node_MatchDepth; cbn; intros [Hd Hm].
  - split; [apply int_wrap_is_int|].
    split; [apply int_wrap_congruent|apply int_wrap_small].
  - done.
Qed.

Lemma MatchDepth_difference_witness :
  is_int (Node_MatchDepth row_handle)
  ∧ match Match row_handle with
    | Some m =>
        ((Node_MatchDepth row_handle - (Depth row_handle - Depth m)) mod 2 ^ 64 = 0)%Z
        ∧ (is_int (Depth row_handle - Depth m) →
           Node_MatchDepth row_handle = (Depth row_handle - Depth m)%Z)
    | None => Node_MatchDepth row_handle = Depth row_handle
    end.
Proof.
  apply (MatchDepth_difference row_handle).
  unfold Node_ok, is_int, int_min, int_max. simpl. lia.
Defined.

Example row_match_depth : Node_MatchDepth row_handle = 1%Z.
Proof. reflexivity. Qed.

Lemma Depth_Parent (h : heap) (n : Node) :
  Depth (Node_Parent h n) = int_wrap (Depth n - 1).
Proof. by destruct n as [[p|] d m]. Qed.

Lemma Depth_FirstChild (h : heap) (n : Node) :
  Depth (Node_FirstChild h n) = int_wrap (Depth n + 1).
Proof. by destruct n as [[p|] d m]. Qed.

Lemma Depth_LastChild (h : heap) (n : Node) :
  Depth (Node_LastChild h n) = int_wrap (Depth n + 1).
Proof. by destruct n as [[p|] d m]. Qed.

Lemma Depth_siblings (h : heap) (n : Node) :
  Depth (Node_PrevSibling h n) = Depth n ∧ Depth (Node_NextSibling h n) = Depth n.
Proof. by destruct n as [[p|] d m]. Qed.

(** C8, as stated, fails at the ends of the [int] range: the first child
    of a handle at the largest depth has the smallest depth, not a depth
    that is larger by one. *)
Lemma FirstChild_depth_wraps :
  is_int (Depth deepest_handle)
  ∧ Depth (Node_FirstChild table_doc deepest_handle) = int_min
  ∧ Depth (Node_FirstChild table_doc deepest_handle) ≠ (Depth deepest_handle + 1)%Z.
Proof.
  split; [unfold is_int; vm_compute; split; discriminate|].
  split; [reflexivity|]. vm_compute. discriminate.
Qed.

(** C8, amended. For every handle, present or absent: the depth of the
    parent of the first child is the handle's depth; the first and the
    last child are one level deeper and the parent one level higher in
    Go's [int] arithmetic, that is exactly one unless the depth wraps
    around at the end of the [int] range; the siblings keep the depth;
    and an absent handle stays absent under all five accessors. *)
Theorem depth_bookkeeping (h : heap) (n : Node) :
  is_int (Depth n) →
  Depth (Node_Parent h (Node_FirstChild h n)) = Depth n
  ∧ ((Depth n < int_max)%Z →
     Depth (Node_FirstChild h n) = (Depth n + 1)%Z
     ∧ Depth (Node_LastChild h n) = (Depth n + 1)%Z)
  ∧ (Depth n = int_max →
     Depth (Node_FirstChild h n) = int_min ∧ Depth (Node_LastChild h n) = int_min)
  ∧ ((int_min < Depth n)%Z → Depth (Node_Parent h n) = (Depth n - 1)%Z)
  ∧ (Depth n = int_min → Depth (Node_Parent h n) = int_max)
  ∧ Depth (Node_PrevSibling h n) = Depth n
  ∧ Depth (Node_NextSibling h n) = Depth n
  ∧ (Data n = None →
     Data (Node_Parent h n) = None
     ∧ Data (Node_FirstChild h n) = None
     ∧ Data (Node_LastChild h n) = None
     ∧ Data (Node_PrevSibling h n) = None
     ∧ Data (Node_NextSibling h n) = None).
Proof.
  intros Hd.
  destruct (Depth_siblings h n) as [Hprev Hnext].
  rewrite Depth_Parent, !Depth_FirstChild, Depth_LastChild.
  assert (∀ z, is_int z → int_wrap z = z) as Hsmall by apply int_wrap_small.
  split; [by apply int_wrap_succ_pred|].
  unfold is_int, int_min, int_max in *.
  split; [intros ?; split; apply Hsmall; lia|].
  split; [by intros ->|].
  split; [rewrite Depth_Parent; intros ?; apply Hsmall; lia|].
  split; [rewrite Depth_Parent; by intros ->|].
  split; [done|]. split; [done|].
  destruct n as [[p|] d m]; [discriminate|]. by intros _.
Qed.

Lemma depth_bookkeeping_witness :
  Depth (Node_Parent table_doc (Node_FirstChild table_doc row_handle)) = Depth row_handle
  ∧ ((Depth row_handle < int_max)%Z →
     Depth (Node_FirstChild table_doc row_handle) = (Depth row_handle + 1)%Z
     ∧ Depth (Node_LastChild table_doc row_handle) = (Depth row_handle + 1)%Z)
  ∧ (Depth row_handle = int_max →
     Depth (Node_FirstChild table_doc row_handle) = int_min
     ∧ Depth (Node_LastChild table_doc row_handle) = int_min)
  ∧ ((int_min < Depth row_handle)%Z →
     Depth (Node_Parent table_doc row_handle) = (Depth row_handle - 1)%Z)
  ∧ (Depth row_handle = int_min → Depth (Node_Parent table_doc row_handle) = int_max)
  ∧ Depth (Node_PrevSibling table_doc row_handle) = Depth row_handle
  ∧ Depth (Node_NextSibling table_doc row_handle) = Depth row_handle
  ∧ (Data row_handle = None →
     Data (Node_Parent table_doc row_handle) = None
     ∧ Data (Node_FirstChild table_doc row_handle) = None
     ∧ Data (Node_LastChild table_doc row_handle) = None
     ∧ Data (Node_PrevSibling table_doc row_handle) = None
     ∧ Data (Node_NextSibling table_doc row_handle) = None).
Proof.
  apply (depth_bookkeeping table_doc row_handle).
  unfold is_int, int_min, int_max. simpl. lia.
Defined.

Example row_navigation :
  Node_FirstChild table_doc row_handle = mkNode (Some 4) 3 (Some tbody_handle)
  ∧ Node_NextSibling table_doc row_handle = mkNode (Some 6) 2 (Some tbody_handle)
  ∧ Node_Parent table_doc row_handle = mkNode (Some 2) 1 (Some tbody_handle)
  ∧ Node_PrevSibling table_doc row_handle = mkNode None 2 (Some tbody_handle)
  ∧ Node_FirstChild table_doc (Node_PrevSibling table_doc row_handle)
    = mkNode None 3 (Some tbody_handle).
Proof. repeat split. Qed.

(** C10. [GetAttrVal] does not depend on its [attributes] argument: it is
    [getAttrVal] on the attributes of the handle's own node. *)
Theorem GetAttrVal_ignores_attributes
    (getAttrVal : string → string → list html.Attribute → string)
    (h : heap) (n : Node) (namespace key : string)
    (attributes1 attributes2 : list html.Attribute) :
  Node_GetAttrVal h getAttrVal n namespace key attributes1
  = Node_GetAttrVal h getAttrVal n namespace key attributes2
  ∧ Node_GetAttrVal h getAttrVal n namespace key attributes1
    = getAttrVal namespace key (Node_Attr h n).
Proof. split; reflexivity. Qed.

(** * Parse *)



(** One call after the other: a reader that fails with an error of the
    text of the no-match, then a document in which nothing matches. The
    two errors have the same text and are different values. *)
Example Parse_failure_then_no_match :
  Parse sample_reader sample_Parse sample_findNodeRaw
    (fails_with "htmlutil.Parse no match") [Some (fun _ => false)] 0
  = (Node_zero, Some (mkError 0 "htmlutil.Parse no match"), 1)
  ∧ Parse sample_reader sample_Parse sample_findNodeRaw
      reads_table [Some (fun _ => false)] 1
    = (Node_zero, Some (mkError 1 "htmlutil.Parse no match"), 2)
  ∧ mkError 0 "htmlutil.Parse no match" ≠ mkError 1 "htmlutil.Parse no match"
  ∧ Parse sample_reader sample_Parse sample_findNodeRaw reads_table [] 2
    = (mkNode (Some 1) 0 None, None, 2).
Proof. repeat split. discriminate. Qed.

(** * More of internal.go *)

(** ** The removal loops on any slice *)

Lemma dedup_i_short (result : list ptr) (finish : nat) :
  length result ≤ finish →
  ∀ k i, finish - i < k → dedup_i k i finish result = Ret result.
Proof.
  intros Hlen. induction k as [|k IH]; intros i Hk; [lia|].
  cbn [dedup_i]. destruct (decide (i < finish)) as [Hi|Hi]; [|done].
  cbn [dedup_j]. rewrite decide_False by lia. cbn [mbind outcome_bind].
  apply IH. lia.
Qed.

Lemma dedup_total (start finish : nat) (result : list ptr) :
  dedup start finish result
  = Ret (take finish result
         ++ filter (fun y => y ∉ take (finish - start) (drop start result))
                   (drop finish result)).
Proof.
  destruct (decide (start ≤ finish)) as [Hsf|Hsf].
  - destruct (decide (finish ≤ length result)) as [Hfl|Hfl].
    + set (pre := take start result).
      set (mid := take (finish - start) (drop start result)).
      set (post := drop finish result).
      assert (result = pre ++ mid ++ post) as Hsplit.
      { subst pre mid post.
        rewrite <- (take_drop start result) at 1. f_equal.
        rewrite <- (take_drop (finish - start) (drop start result)) at 1. f_equal.
        rewrite drop_drop. f_equal. lia. }
      assert (length pre = start) as Hpre by (subst pre; rewrite length_take; lia).
      assert (length mid = finish - start) as Hmid
        by (subst mid; rewrite length_take, length_drop; lia).
      assert (take finish result = pre ++ mid) as ->.
      { rewrite Hsplit, app_assoc. rewrite take_app_length'; [done|].
        rewrite length_app. lia. }
      rewrite Hsplit at 1.
      replace start with (length pre) at 1 by done.
      replace finish with (length (pre ++ mid)) at 1 by (rewrite length_app; lia).
      rewrite dedup_frame. by rewrite <- app_assoc.
    + unfold dedup. rewrite dedup_i_short by lia.
      rewrite (take_ge result finish), (drop_ge result finish) by lia.
      by rewrite filter_nil, app_nil_r.
  - unfold dedup. replace (finish - start) with 0 by lia.
    cbn [dedup_i]. rewrite decide_False by lia.
    cbn [take]. rewrite filter_keeps_all by (intros y _; apply not_elem_of_nil).
    by rewrite take_drop.
Qed.

(** X8. Whatever the slice and the two bounds, the removal loops return:
    they keep the first [finish] elements as they are and delete, from
    what follows, exactly the elements that occur at the positions from
    [start] up to [finish], leaving the others in their order. *)
Theorem dedup_removes_frame_duplicates (start finish : nat) (result : list ptr) :
  ∃ kept,
    dedup start finish result = Ret kept
    ∧ kept = take finish result
             ++ filter (fun y => y ∉ take (finish - start) (drop start result))
                       (drop finish result)
    ∧ take finish kept = take finish result
    ∧ kept `sublist_of` result.
Proof.
  eexists. split; [apply dedup_total|]. split; [done|]. split.
  - destruct (decide (finish ≤ length result)) as [Hle|Hgt].
    + rewrite take_app_length'; [done|]. rewrite length_take. lia.
    + rewrite (drop_ge result finish) by lia.
      by rewrite filter_nil, app_nil_r, take_take, Nat.min_id.
  - rewrite <- (take_drop finish result) at 3.
    apply sublist_app; [done|]. apply sublist_filter.
Qed.

Example dedup_sample :
  dedup 1 3 [10; 11; 12; 11; 13; 12; 10; 11] = Ret [10; 11; 12; 13; 10].
Proof. reflexivity. Qed.

(** ** The traversal on any pointer graph *)

Lemma returns_bind {A B : Type} (P : A → Prop) (Q : B → Prop)
    (m : outcome A) (k : A → outcome B) :
  returns P m → (∀ a, P a → returns Q (k a)) → returns Q (m ≫= k).
Proof. destruct m as [a| |]; cbn; [|done..]. intros Ha Hk. by apply Hk. Qed.

Lemma returns_impl {A : Type} (P Q : A → Prop) (m : outcome A) :
  (∀ a, P a → Q a) → returns P m → returns Q m.
Proof. destruct m as [a| |]; cbn; [|done..]. intros HPQ. apply HPQ. Qed.

Lemma each_sibling_returns (h : heap) (body : ptr → list ptr → outcome (list ptr))
    (I : list ptr → Prop) :
  (∀ c r, I r → returns I (body c r)) →
  ∀ k c r, I r → returns I (each_sibling h k body c r).
Proof.
  intros Hbody. induction k as [|k IH]; intros c r Hr; [done|].
  cbn [each_sibling]. destruct c as [c|]; [|done].
  apply (returns_bind I); [by apply Hbody|]. intros r'. apply IH.
Qed.

Lemma fn_appends (h : heap) :
  ∀ fuel config res, returns (fun r => res `prefix_of` r) (fn h fuel config res).
Proof.
  induction fuel as [|fuel IH]; intros [node fs find] res; [done|].
  cbn [fn]. config_simpl.
  destruct node as [n|]; [|cbn; reflexivity].
  destruct (find && negb (length res =? 0)); [cbn; reflexivity|].
  destruct (length fs =? 0); [cbn; by apply prefix_app_r|].
  apply (returns_bind (fun r => res `prefix_of` r)).
  - destruct (next_filter fs) as [filter fs'].
    destruct (match filter with Some f => negb (f n) | None => false end);
      [cbn; reflexivity|].
    destruct (length fs' =? 0); [apply IH|].
    apply each_sibling_returns; [|reflexivity].
    intros c r Hr. eapply returns_impl; [|apply IH].
    intros r' Hr'. by etrans.
  - intros result1 Hres.
    eapply returns_impl; [intros r Hr; etrans; [exact Hres|exact Hr]|].
    apply each_sibling_returns; [|reflexivity].
    intros c r Hr.
    apply (returns_bind (fun r' => result1 `prefix_of` r')).
    + eapply returns_impl; [|apply IH]. intros r' Hr'. by etrans.
    + intros r' [Y ->]. destruct Hres as [adv ->].
      rewrite <- (app_assoc res adv Y), dedup_frame.
      cbn. rewrite (app_assoc res adv). by apply prefix_app_r.
Qed.

(** X1. On any pointer graph, tree or not, with any filters, in either
    mode and with any fuel, the traversal never indexes its slice out of
    range; and a call of the closure that returns has only added to the
    slice it was given: what was there before is still there, in front. *)
Theorem fn_never_panics (h : heap) (fuel : nat) (config : filterNodesConfig.t)
    (res : list ptr) :
  fn h fuel config res ≠ Panic
  ∧ filterNodes h fuel config ≠ Panic
  ∧ ∀ r, fn h fuel config res = Ret r → res `prefix_of` r.
Proof.
  pose proof (fn_appends h fuel config res) as Hfn.
  pose proof (fn_appends h fuel
                (filterNodesConfig.mk (filterNodesConfig.Node config)
                   (copyValidFilters (filterNodesConfig.Filters config))
                   (filterNodesConfig.Find config)) []) as Hall.
  unfold filterNodes.
  split; [by intros Heq; rewrite Heq in Hfn|].
  split; [by intros Heq; rewrite Heq in Hall|].
  intros r Heq. by rewrite Heq in Hfn.
Qed.

Lemma fn_find_keeps_one (h : heap) :
  ∀ fuel node fs res,
    returns (fun r => match res with [] => length r ≤ 1 | _ => r = res end)
            (fn h fuel (filterNodesConfig.mk node fs true) res).
Proof.
  induction fuel as [|fuel IH]; intros node fs res; [done|].
  assert (∀ c gs r, length r ≤ 1 →
            returns (fun r' => length r' ≤ 1)
                    (fn h fuel (filterNodesConfig.mk c gs true) r)) as Hone.
  { intros c gs r Hr. eapply returns_impl; [|apply IH].
    intros r'. destruct r as [|x r]; [done|]. by intros ->. }
  cbn [fn]. config_simpl.
  destruct node as [n|]; [|destruct res; cbn; [lia|done]].
  destruct res as [|x res]; [|done]. cbn [length Nat.eqb negb andb app].
  destruct (length fs =? 0); [cbn; lia|].
  apply (returns_bind (fun r => length r ≤ 1)).
  - destruct (next_filter fs) as [filter fs'].
    destruct (match filter with Some f => negb (f n) | None => false end);
      [cbn; lia|].
    destruct (length fs' =? 0); [apply Hone; cbn; lia|].
    apply each_sibling_returns; [|cbn; lia].
    intros c r Hr. by apply Hone.
  - intros result1 Hres.
    apply each_sibling_returns; [|done].
    intros c r Hr.
    apply (returns_bind (fun r' => length r' ≤ 1)); [by apply Hone|].
    intros r' Hr'. rewrite dedup_total. cbn.
    rewrite length_app, length_take.
    pose proof (length_filter
                  (fun y => y ∉ take (length result1 - 0) (drop 0 r'))
                  (drop (length result1) r')) as Hfilter.
    rewrite length_drop in Hfilter. lia.
Qed.

Lemma each_sibling_fixed (h : heap) (body : ptr → list ptr → outcome (list ptr))
    (result : list ptr) (c : option ptr) (cs : list ptr) :
  sibling_list h c cs →
  (∀ c', body c' result = Ret result) →
  ∀ k, length cs < k → each_sibling h k body c result = Ret result.
Proof.
  induction 1 as [|c cs _ IH]; intros Hbody k Hk.
  - destruct k as [|k]; [simpl in Hk; lia|]. done.
  - destruct k as [|k]; [simpl in Hk; lia|].
    simpl in Hk. cbn [each_sibling]. rewrite Hbody. cbn [mbind outcome_bind].
    apply IH; [done|lia].
Qed.

(** X2. In find mode, when the start node satisfies the only filter of the
    chain, the traversal returns the start node alone, and it returns
    without descending: on any pointer graph in which the list of the
    start's children ends, whatever lies below the children, cycles
    included. *)
Theorem find_stops_at_matching_start (h : heap) (p : ptr)
    (fs : list (option predicate)) (f : predicate) (cs : list ptr) (fuel : nat) :
  sibling_list h (html.FirstChild (h p)) cs → length cs < fuel →
  valid fs = [f] → f p = true →
  filterNodes h (S fuel) (filterNodesConfig.mk (Some p) fs true) = Ret [p].
Proof.
  intros Hcs Hfuel Hvalid Hf. unfold filterNodes. config_simpl.
  rewrite copyValidFilters_valid, Hvalid.
  cbn [fn fmap list_fmap]. config_simpl.
  cbn [length Nat.eqb negb andb next_filter]. rewrite Hf. cbn [negb].
  destruct fuel as [|fuel]; [lia|].
  rewrite fn_no_filters. cbn [length Nat.eqb negb andb app mbind outcome_bind].
  apply (each_sibling_fixed h _ [p] _ cs Hcs); [|done].
  intros c'. reflexivity.
Qed.

Lemma find_stops_at_matching_start_witness :
  filterNodes knot 3 (filterNodesConfig.mk (Some 0) [None; Some (fun _ => true)] true)
  = Ret [0].
Proof.
  apply (find_stops_at_matching_start knot 0 [None; Some (fun _ => true)]
           (fun _ => true) [0] 2).
  - repeat constructor.
  - simpl. lia.
  - reflexivity.
  - reflexivity.
Defined.

(** X5. On a node that is its own first child, the collecting traversal
    with a chain that holds a filter never returns: it recurses into the
    node again and again, whatever the filters answer, and uses up any
    amount of fuel. *)
Theorem self_child_never_returns (h : heap) (p : ptr)
    (fs : list (option predicate)) (fuel : nat) :
  html.FirstChild (h p) = Some p → valid fs ≠ [] →
  filterNodes h fuel (filterNodesConfig.mk (Some p) fs false) = OutOfFuel.
Proof.
  intros Hself Hfs. unfold filterNodes. config_simpl.
  rewrite copyValidFilters_valid. revert Hfs. generalize (valid fs) as gs.
  generalize (@nil ptr) as res. clear fs.
  induction fuel as [|fuel IH]; intros res gs Hgs; [done|].
  destruct gs as [|f rest]; [done|].
  cbn [fn]. config_simpl.
  cbn [fmap list_fmap length Nat.eqb andb next_filter]. rewrite Hself.
  assert (∀ gs' r, gs' ≠ [] →
            each_sibling h fuel
              (fun c result =>
                 fn h fuel (filterNodesConfig.mk (Some c) (Some <$> gs') false) result)
              (Some p) r = OutOfFuel) as Hinner.
  { intros gs' r Hgs'. destruct fuel as [|fuel']; [done|].
    cbn [each_sibling]. by rewrite IH. }
  assert (∀ start finish r,
            each_sibling h fuel
              (fun c result =>
                 result ← fn h fuel (filterNodesConfig.mk (Some c)
                                       (Some f :: (Some <$> rest)) false) result;
                 dedup start finish result)
              (Some p) r = OutOfFuel) as Houter.
  { intros start finish r. destruct fuel as [|fuel']; [done|].
    cbn [each_sibling].
    pose proof (IH r (f :: rest)) as Hrec. cbn [fmap list_fmap] in Hrec.
    by rewrite Hrec. }
  destruct (negb (f p)); [cbn [mbind outcome_bind]; apply Houter|].
  destruct rest as [|g rest].
  - cbn [fmap list_fmap length Nat.eqb].
    pose proof (fn_appends h fuel (filterNodesConfig.mk (Some p) [] false) res) as Hfn.
    destruct (fn h fuel (filterNodesConfig.mk (Some p) [] false) res) as [r| |];
      [|done..].
    cbn [mbind outcome_bind]. apply Houter.
  - cbn [fmap list_fmap length Nat.eqb].
    rewrite (Hinner (g :: rest)) by done. done.
Qed.

Lemma self_child_never_returns_witness :
  filterNodes knot 1000 (filterNodesConfig.mk (Some 0) [None; Some (fun _ => false)] false)
  = OutOfFuel.
Proof.
  apply (self_child_never_returns knot 0 [None; Some (fun _ => false)] 1000).
  - reflexivity.
  - unfold valid. simpl. discriminate.
Defined.

(** ** copyValidFilters *)


(** ** The traversal on a tree: what the second descent adds *)

Lemma subtrees_trans :
  ∀ t m m', m ∈ subtrees t → m' ∈ subtrees m → m' ∈ subtrees t.
Proof.
  induction t as [p kids IH] using tree_forall_ind. intros m m'.
  change (subtrees (T p kids)) with (T p kids :: (kids ≫= subtrees)).
  rewrite !elem_of_cons. intros [->|Hm] Hm'.
  - change (subtrees (T p kids)) with (T p kids :: (kids ≫= subtrees)) in Hm'.
    by apply elem_of_cons in Hm'.
  - right. apply list_elem_of_bind in Hm as (c & Hm & Hc).
    apply list_elem_of_bind. exists c. split; [|done].
    rewrite Forall_forall in IH. by apply (IH c Hc m m').
Qed.

Lemma proper_subtrees_subtrees (m m' : tree) :
  m' ∈ proper_subtrees m → m' ∈ subtrees m.
Proof.
  destruct m as [p kids]. unfold proper_subtrees. cbn [children].
  change (subtrees (T p kids)) with (T p kids :: (kids ≫= subtrees)).
  intros Hm'. by right.
Qed.

Lemma forest_subtrees_closed (kids : list tree) (m m' : tree) :
  m ∈ kids ≫= subtrees → m' ∈ proper_subtrees m → m' ∈ kids ≫= subtrees.
Proof.
  intros (c & Hm & Hc)%list_elem_of_bind Hm'.
  apply list_elem_of_bind. exists c. split; [|done].
  apply (subtrees_trans c m m' Hm). by apply proper_subtrees_subtrees.
Qed.

Lemma filter_drops_all {A} (P : A → Prop) `{∀ x, Decision (P x)} (l : list A) :
  (∀ x, x ∈ l → ¬ P x) → filter P l = [].
Proof.
  induction l as [|x l IH]; intros Hnone; [done|].
  rewrite filter_cons_False by (apply Hnone; left).
  apply IH. intros y Hy. apply Hnone. by right.
Qed.

Lemma collect_nodes : ∀ t fs x, x ∈ collect t fs → x ∈ nodes t.
Proof.
  induction t as [n kids IH] using tree_forall_ind. intros fs x.
  assert (∀ gs, x ∈ kids ≫= (fun c => collect c gs) → x ∈ kids ≫= nodes) as Hkids.
  { intros gs. rewrite !list_elem_of_bind. intros (c & Hx & Hc).
    exists c. split; [|done]. rewrite Forall_forall in IH. by apply (IH c Hc gs). }
  cbn [collect nodes]. rewrite elem_of_cons.
  destruct fs as [|f rest].
  - rewrite list_elem_of_singleton. tauto.
  - rewrite elem_of_app, list_elem_of_filter.
    intros [Hadv|[_ Hrec]]; [|right; by apply (Hkids (f :: rest))].
    destruct (f n); [|by apply elem_of_nil in Hadv].
    destruct rest as [|g rest].
    + apply list_elem_of_singleton in Hadv. tauto.
    + right. by apply (Hkids (g :: rest)).
Qed.

(** The equations of the result: what remains of the two descents once
    the removal loops have run. *)
Lemma collect_unfold (n : ptr) (kids : list tree) (f : predicate) (rest : list predicate) :
  n ∉ kids ≫= nodes →
  collect (T n kids) (f :: rest)
  = if f n then
      match rest with
      | [] => n :: (kids ≫= (fun c => collect c [f]))
      | _ => kids ≫= (fun c => collect c rest)
      end
    else kids ≫= (fun c => collect c (f :: rest)).
Proof.
  intros Hn. cbn [collect]. destruct (f n) eqn:Hf.
  - destruct rest as [|g rest].
    + cbn [app]. f_equal. apply filter_keeps_all.
      intros x Hx ->%list_elem_of_singleton. apply Hn.
      apply list_elem_of_bind in Hx as (c & Hx & Hc).
      apply list_elem_of_bind. exists c. split; [|done].
      by apply (collect_nodes c [f]).
    + rewrite filter_drops_all; [by rewrite app_nil_r|].
      intros x Hx Hnot. apply Hnot.
      assert (∀ gs, gs ≠ [] →
                x ∈ kids ≫= (fun c => collect c gs)
                ↔ ∃ m, m ∈ kids ≫= subtrees ∧ chain gs m x) as Hforest.
      { intros gs Hgs. apply forest_chain; [|done].
        apply Forall_forall. intros c _ gs'. apply collect_chain. }
      apply Hforest in Hx as (m & Hm & Hchain); [|done].
      inversion Hchain as [|? ? ? ? m' ? _ Hm' Hchain']; subst.
      apply Hforest; [done|]. exists m'. split; [|done].
      by apply (forest_subtrees_closed kids m m').
  - cbn [app]. apply filter_keeps_all. intros x _. apply not_elem_of_nil.
Qed.

Lemma NoDup_bind_elem {A B} (f : A → list B) (l : list A) (x : A) :
  NoDup (l ≫= f) → x ∈ l → NoDup (f x).
Proof.
  induction l as [|y l IH]; intros Hnd Hx; [by apply elem_of_nil in Hx|].
  rewrite bind_cons in Hnd. apply NoDup_app in Hnd as (Hy & _ & Hl).
  apply elem_of_cons in Hx as [->|Hx]; [done|by apply IH].
Qed.

Lemma sublist_bind {A B} (f g : A → list B) (l : list A) :
  (∀ x, x ∈ l → g x `sublist_of` f x) → (l ≫= g) `sublist_of` (l ≫= f).
Proof.
  induction l as [|y l IH]; intros Hall; [done|].
  rewrite !bind_cons. apply sublist_app; [apply Hall; left|].
  apply IH. intros x Hx. apply Hall. by right.
Qed.

Lemma filter_bind {A B} (P : B → Prop) `{∀ x, Decision (P x)} (f : A → list B)
    (l : list A) :
  filter P (l ≫= f) = l ≫= (fun x => filter P (f x)).
Proof.
  induction l as [|y l IH]; [done|].
  by rewrite !bind_cons, filter_app, IH.
Qed.

Lemma bind_ext_elem {A B} (f g : A → list B) (l : list A) :
  (∀ x, x ∈ l → f x = g x) → l ≫= f = l ≫= g.
Proof.
  induction l as [|y l IH]; intros Hall; [done|].
  rewrite !bind_cons, (Hall y) by left. f_equal.
  apply IH. intros x Hx. apply Hall. by right.
Qed.

Lemma concat_fmap_bind {A B} (f : A → list B) (l : list A) :
  concat (f <$> l) = l ≫= f.
Proof. induction l as [|y l IH]; [done|]. cbn. by rewrite IH. Qed.

Lemma collect_sublist : ∀ t fs, NoDup (nodes t) → collect t fs `sublist_of` nodes t.
Proof.
  induction t as [n kids IH] using tree_forall_ind. intros fs Hnd.
  cbn [nodes] in *. apply NoDup_cons in Hnd as [Hn Hnd].
  assert (∀ gs, (kids ≫= (fun c => collect c gs)) `sublist_of` (kids ≫= nodes)) as Hkids.
  { intros gs. apply sublist_bind. intros c Hc.
    rewrite Forall_forall in IH. apply (IH c Hc gs).
    by apply (NoDup_bind_elem nodes kids c). }
  destruct fs as [|f rest]; [apply sublist_skip, sublist_nil_l|].
  rewrite collect_unfold by done.
  destruct (f n); [|apply sublist_cons, Hkids].
  destruct rest as [|g rest]; [apply sublist_skip, Hkids|apply sublist_cons, Hkids].
Qed.

Lemma collect_one_filter :
  ∀ t f, NoDup (nodes t) → collect t [f] = filter (fun x => f x = true) (nodes t).
Proof.
  induction t as [n kids IH] using tree_forall_ind. intros f Hnd.
  cbn [nodes] in *. apply NoDup_cons in Hnd as [Hn Hnd].
  rewrite collect_unfold by done.
  assert (kids ≫= (fun c => collect c [f])
          = filter (fun x => f x = true) (kids ≫= nodes)) as ->.
  { rewrite filter_bind. apply bind_ext_elem. intros c Hc.
    rewrite Forall_forall in IH. apply (IH c Hc f).
    by apply (NoDup_bind_elem nodes kids c). }
  destruct (f n) eqn:Hf.
  - by rewrite filter_cons_True.
  - rewrite filter_cons_False; [done|]. by rewrite Hf.
Qed.

(** X3. With a single filter, on a tree, the collecting traversal returns
    exactly the nodes of the start's subtree that satisfy the filter, in
    document order, and the find mode returns the first of them. *)
Theorem one_filter_in_document_order (h : heap) (p : ptr) (t : tree)
    (f : predicate) (fuel : nat) :
  is_tree h p t → size t < fuel →
  filterNodes h fuel (filterNodesConfig.mk (Some p) [Some f] false)
  = Ret (filter (fun x => f x = true) (nodes t))
  ∧ filterNodes h fuel (filterNodesConfig.mk (Some p) [Some f] true)
    = Ret (take 1 (filter (fun x => f x = true) (nodes t))).
Proof.
  intros [Hshape Hnd] Hfuel.
  rewrite !(filterNodes_found h fuel p t) by done.
  change (valid [Some f]) with [f]. unfold found.
  by rewrite collect_one_filter.
Qed.

Lemma one_filter_in_document_order_witness :
  filterNodes table_doc 10 (filterNodesConfig.mk (Some 1) [Some (is_text table_doc)] false)
  = Ret (filter (fun x => is_text table_doc x = true) (nodes table_tree))
  ∧ filterNodes table_doc 10 (filterNodesConfig.mk (Some 1) [Some (is_text table_doc)] true)
    = Ret (take 1 (filter (fun x => is_text table_doc x = true) (nodes table_tree))).
Proof.
  apply (one_filter_in_document_order table_doc 1 table_tree (is_text table_doc) 10).
  - exact table_is_tree.
  - vm_compute. lia.
Defined.

(** X4. On a tree and for any chain of filters, the collecting traversal
    returns its nodes in document order: the result is the list of the
    nodes of the start's subtree with some of them left out. *)
Theorem results_in_document_order (h : heap) (p : ptr) (t : tree)
    (fs : list (option predicate)) (fuel : nat) :
  is_tree h p t → size t < fuel →
  ∃ result,
    filterNodes h fuel (filterNodesConfig.mk (Some p) fs false) = Ret result
    ∧ result `sublist_of` nodes t.
Proof.
  intros [Hshape Hnd] Hfuel. exists (collect t (valid fs)).
  split; [exact (filterNodes_found h fuel p t fs false Hshape Hfuel)|].
  by apply collect_sublist.
Qed.

Lemma results_in_document_order_witness :
  ∃ result,
    filterNodes table_doc 10
      (filterNodesConfig.mk (Some 1)
         [Some (fun _ => true); Some (is_tag table_doc "tr"); Some (fun _ => true)] false)
    = Ret result
    ∧ result `sublist_of` nodes table_tree.
Proof.
  apply (results_in_document_order table_doc 1 table_tree _ 10).
  - exact table_is_tree.
  - vm_compute. lia.
Defined.

(** X6. On a tree, the result at a node is made of the results at its
    children. When the node fails the first filter, it is the results of
    the children for the same chain, one after the other. When the node
    passes the first filter and more filters follow, it is the results of
    the children for the rest of the chain, and nothing else: all that the
    descent with the whole chain finds is removed as a duplicate. When the
    node passes the only filter, it is the node followed by the results of
    the children. *)
Theorem result_from_children (h : heap) (p : ptr) (kids : list tree)
    (fs : list (option predicate)) (fuel : nat) :
  is_tree h p (T p kids) → size (T p kids) < fuel →
  ∃ result same rest,
    filterNodes h fuel (filterNodesConfig.mk (Some p) fs false) = Ret result
    ∧ Forall2 (fun c r =>
                 filterNodes h fuel (filterNodesConfig.mk (Some (root c)) fs false) = Ret r)
              kids same
    ∧ Forall2 (fun c r =>
                 filterNodes h fuel
                   (filterNodesConfig.mk (Some (root c)) (Some <$> tail (valid fs)) false)
                 = Ret r)
              kids rest
    ∧ result = match valid fs with
               | [] => [p]
               | f :: [] => if f p then p :: concat same else concat same
               | f :: _ => if f p then concat rest else concat same
               end.
Proof.
  intros [[_ Hkids] Hnd] Hfuel. cbn [children] in Hkids.
  assert (∀ gs c, c ∈ kids →
            filterNodes h fuel (filterNodesConfig.mk (Some (root c)) gs false)
            = Ret (collect c (valid gs))) as Hchild.
  { intros gs c Hc. apply (filterNodes_found h fuel (root c) c gs false).
    - by apply (siblings_shape h (html.FirstChild (h p)) kids).
    - pose proof (kids_size kids c Hc). cbn [size] in Hfuel. lia. }
  exists (collect (T p kids) (valid fs)),
         ((fun c => collect c (valid fs)) <$> kids),
         ((fun c => collect c (tail (valid fs))) <$> kids).
  split.
  { apply (filterNodes_found h fuel p (T p kids) fs false); [by split|done]. }
  split.
  { apply Forall2_fmap_r, Forall_Forall2_diag, Forall_forall.
    intros c Hc. by apply Hchild. }
  split.
  { apply Forall2_fmap_r, Forall_Forall2_diag, Forall_forall.
    intros c Hc. rewrite (Hchild _ c Hc). by rewrite valid_Some. }
  rewrite !concat_fmap_bind.
  cbn [nodes] in Hnd. apply NoDup_cons in Hnd as [Hp _].
  destruct (valid fs) as [|f [|g gs]]; [done|..]; by rewrite collect_unfold.
Qed.

Lemma result_from_children_witness :
  ∃ result same rest,
    filterNodes table_doc 10
      (filterNodesConfig.mk (Some 2) [Some (is_tag table_doc "tbody"); Some (fun _ => true)]
         false) = Ret result
    ∧ Forall2 (fun c r =>
                 filterNodes table_doc 10
                   (filterNodesConfig.mk (Some (root c))
                      [Some (is_tag table_doc "tbody"); Some (fun _ => true)] false) = Ret r)
              [T 3 [T 4 [T 5 []]]; T 6 [T 7 [T 8 []]]] same
    ∧ Forall2 (fun c r =>
                 filterNodes table_doc 10
                   (filterNodesConfig.mk (Some (root c))
                      (Some <$> tail (valid [Some (is_tag table_doc "tbody");
                                             Some (fun _ => true)])) false) = Ret r)
              [T 3 [T 4 [T 5 []]]; T 6 [T 7 [T 8 []]]] rest
    ∧ result = match valid [Some (is_tag table_doc "tbody"); Some (fun _ => true)] with
               | [] => [2]
               | f :: [] => if f 2 then 2 :: concat same else concat same
               | f :: _ => if f 2 then concat rest else concat same
               end.
Proof.
  apply (result_from_children table_doc 2 [T 3 [T 4 [T 5 []]]; T 6 [T 7 [T 8 []]]] _ 10).
  - split.
    + split; [reflexivity|]. repeat constructor.
    + apply (bool_decide_unpack _). vm_compute. exact I.
  - vm_compute. lia.
Defined.

(** X15. On a tree and for a chain that holds a filter, the find mode
    returns nothing exactly when no chain of matches exists below the
    start, and then the collecting traversal returns nothing either. *)
Theorem find_fails_without_match (h : heap) (p : ptr) (t : tree)
    (fs : list (option predicate)) (fuel : nat) :
  is_tree h p t → size t < fuel → valid fs ≠ [] →
  ∃ first all,
    filterNodes h fuel (filterNodesConfig.mk (Some p) fs true) = Ret first
    ∧ filterNodes h fuel (filterNodesConfig.mk (Some p) fs false) = Ret all
    ∧ (first = [] ↔ all = [])
    ∧ (first = [] ↔ ¬ ∃ m1 n, m1 ∈ subtrees t ∧ chain (valid fs) m1 n).
Proof.
  intros [Hshape _] Hfuel Hfs.
  exists (take 1 (collect t (valid fs))), (collect t (valid fs)).
  split; [exact (filterNodes_found h fuel p t fs true Hshape Hfuel)|].
  split; [exact (filterNodes_found h fuel p t fs false Hshape Hfuel)|].
  assert (take 1 (collect t (valid fs)) = [] ↔ collect t (valid fs) = []) as Hnil
    by (by destruct (collect t (valid fs))).
  split; [done|]. rewrite Hnil. split.
  - intros Hempty (m1 & n & Hm1 & Hchain).
    assert (n ∈ collect t (valid fs)) as Hn by (apply collect_chain; eauto).
    rewrite Hempty in Hn. by apply elem_of_nil in Hn.
  - intros Hnone. apply elem_of_nil_inv. intros n Hn. apply Hnone.
    apply collect_chain in Hn as (m1 & Hm1 & Hchain); [|done]. eauto.
Qed.

Lemma find_fails_without_match_witness :
  ∃ first all,
    filterNodes table_doc 10
      (filterNodesConfig.mk (Some 1) [Some (is_tag table_doc "tr"); Some (is_tag table_doc "tbody")]
         true) = Ret first
    ∧ filterNodes table_doc 10
        (filterNodesConfig.mk (Some 1)
           [Some (is_tag table_doc "tr"); Some (is_tag table_doc "tbody")] false) = Ret all
    ∧ (first = [] ↔ all = [])
    ∧ (first = [] ↔
       ¬ ∃ m1 n, m1 ∈ subtrees table_tree
                 ∧ chain (valid [Some (is_tag table_doc "tr");
                                 Some (is_tag table_doc "tbody")]) m1 n).
Proof.
  apply (find_fails_without_match table_doc 1 table_tree _ 10).
  - exact table_is_tree.
  - vm_compute. lia.
  - vm_compute. discriminate.
Defined.



(** ** encodeText *)

Lemma for_siblings_spec {S : Type} (h : heap) (body : ptr → S → outcome S)
    (G : S → tree → S) (c : option ptr) (ts : list tree) :
  siblings h c ts →
  (∀ t s, t ∈ ts → body (root t) s = Ret (G s t)) →
  ∀ k s, length ts < k → for_siblings h k body c s = Ret (foldl G s ts).
Proof.
  induction 1 as [|c kids ts _ _ Hts IH]; intros Hbody k s Hk.
  - destruct k as [|k]; [simpl in Hk; lia|]. done.
  - destruct k as [|k]; [simpl in Hk; lia|].
    simpl in Hk. cbn [for_siblings].
    pose proof (Hbody (T c kids) s) as Hrun. cbn [root] in Hrun.
    rewrite Hrun by left. cbn [mbind outcome_bind foldl].
    apply IH; [|lia]. intros t s' Hin. apply Hbody. by right.
Qed.

Lemma foldl_app_bind {A B} (f : A → list B) (l : list A) :
  ∀ b, foldl (fun b x => b ++ f x) b l = b ++ (l ≫= f).
Proof.
  induction l as [|x l IH]; intros b; cbn [foldl].
  - by rewrite app_nil_r.
  - by rewrite IH, bind_cons, app_assoc.
Qed.

Lemma encodeText_text_below (h : heap) :
  ∀ fuel t, shape h (root t) t → size t < fuel →
            encodeText h fuel (Some (root t)) = Ret (text_below h t).
Proof.
  induction fuel as [|fuel IH]; intros [n kids] [_ Hkids] Hsize; [lia|].
  cbn [root children size] in *.
  assert (for_siblings h fuel
            (fun node b => below ← encodeText h fuel (Some node); Ret (b ++ below))
            (html.FirstChild (h n)) [] = Ret (kids ≫= text_below h)) as Hloop.
  { rewrite (for_siblings_spec h _ (fun b t => b ++ text_below h t)
               (html.FirstChild (h n)) kids Hkids).
    - by rewrite foldl_app_bind.
    - intros t b Hin. rewrite IH; [done| |].
      + by apply (siblings_shape h (html.FirstChild (h n)) kids).
      + pose proof (kids_size kids t Hin). lia.
    - pose proof (kids_length kids). lia. }
  cbn [encodeText text_below]. by destruct (html.Type_ (h n)).
Qed.

Lemma text_leaves_kid (h : heap) (n : ptr) (kids : list tree) (c : tree) :
  text_leaves h (T n kids) → c ∈ kids → text_leaves h c.
Proof.
  unfold text_leaves. rewrite !Forall_forall. intros Hall Hc m Hm.
  apply Hall. change (subtrees (T n kids)) with (T n kids :: (kids ≫= subtrees)).
  right. apply list_elem_of_bind. by exists c.
Qed.

Lemma bind_bind {A B C} (f : A → list B) (g : B → list C) (l : list A) :
  (l ≫= f) ≫= g = l ≫= (fun x => f x ≫= g).
Proof.
  induction l as [|x l IH]; [done|].
  by rewrite !bind_cons, bind_app, IH.
Qed.

Lemma text_below_text_nodes (h : heap) :
  ∀ t, text_leaves h t →
       text_below h t
       = filter (fun x => is_text h x = true) (nodes t)
         ≫= (fun x => String.list_byte_of_string (html.Data (h x))).
Proof.
  induction t as [n kids IH] using tree_forall_ind. intros Hleaves.
  assert (kids ≫= text_below h
          = filter (fun x => is_text h x = true) (kids ≫= nodes)
            ≫= (fun x => String.list_byte_of_string (html.Data (h x)))) as Hkids.
  { rewrite filter_bind, bind_bind. apply bind_ext_elem. intros c Hc.
    rewrite Forall_forall in IH. apply (IH c Hc).
    by apply (text_leaves_kid h n kids). }
  cbn [text_below nodes].
  destruct (html.Type_ (h n)) eqn:Htype.
  2: { assert (kids = []) as ->.
       { unfold text_leaves in Hleaves.
         change (subtrees (T n kids)) with (T n kids :: (kids ≫= subtrees)) in Hleaves.
         apply Forall_cons in Hleaves as [Hn _]. by apply Hn. }
       rewrite filter_cons_True by (unfold is_text; by rewrite Htype).
       cbn. by rewrite app_nil_r. }
  all: rewrite filter_cons_False by (unfold is_text; by rewrite Htype).
  all: exact Hkids.
Qed.

Lemma table_text_leaves : text_leaves table_doc table_tree.
Proof.
  unfold text_leaves. cbn.
  repeat (constructor; [cbn; first [discriminate|reflexivity]|]). constructor.
Qed.

(** X9. On a tree whose text nodes have no children, [encodeText] returns
    the data of the text nodes of the start's subtree, one after the
    other in document order, and nothing of the other nodes. *)
Theorem encodeText_joins_the_text_nodes (h : heap) (p : ptr) (t : tree) (fuel : nat) :
  is_tree h p t → text_leaves h t → size t < fuel →
  encodeText h fuel (Some p)
  = Ret (filter (fun x => is_text h x = true) (nodes t)
         ≫= (fun x => String.list_byte_of_string (html.Data (h x)))).
Proof.
  intros [Hshape _] Hleaves Hfuel. pose proof Hshape as [<- _].
  rewrite encodeText_text_below by done.
  by rewrite text_below_text_nodes.
Qed.

Lemma encodeText_joins_the_text_nodes_witness :
  encodeText table_doc 10 (Some 1)
  = Ret (filter (fun x => is_text table_doc x = true) (nodes table_tree)
         ≫= (fun x => String.list_byte_of_string (html.Data (table_doc x)))).
Proof.
  apply (encodeText_joins_the_text_nodes table_doc 1 table_tree 10).
  - exact table_is_tree.
  - exact table_text_leaves.
  - vm_compute. lia.
Defined.

Example encodeText_table :
  encodeText table_doc 10 (Some 1) = Ret (String.list_byte_of_string "ab")
  ∧ encodeText table_doc 10 (Some 6) = Ret (String.list_byte_of_string "b")
  ∧ encodeText table_doc 10 None = Ret [].
Proof. vm_compute. repeat split. Qed.

(** X10. On a tree whose text nodes have no children, [encodeText] is the
    data of the nodes that the collecting traversal finds with the filter
    for text nodes, one after the other. *)
Theorem encodeText_of_filtered_text (h : heap) (p : ptr) (t : tree) (fuel : nat) :
  is_tree h p t → text_leaves h t → size t < fuel →
  ∃ texts,
    filterNodes h fuel (filterNodesConfig.mk (Some p) [Some (is_text h)] false) = Ret texts
    ∧ encodeText h fuel (Some p)
      = Ret (texts ≫= (fun x => String.list_byte_of_string (html.Data (h x)))).
Proof.
  intros [Hshape Hnd] Hleaves Hfuel. pose proof Hshape as [Hroot _].
  exists (filter (fun x => is_text h x = true) (nodes t)). split.
  - rewrite (filterNodes_found h fuel p t) by done.
    change (valid [Some (is_text h)]) with [is_text h]. unfold found.
    by rewrite collect_one_filter.
  - subst p. rewrite encodeText_text_below by done.
    by rewrite text_below_text_nodes.
Qed.

Lemma encodeText_of_filtered_text_witness :
  ∃ texts,
    filterNodes table_doc 10
      (filterNodesConfig.mk (Some 1) [Some (is_text table_doc)] false) = Ret texts
    ∧ encodeText table_doc 10 (Some 1)
      = Ret (texts ≫= (fun x => String.list_byte_of_string (html.Data (table_doc x)))).
Proof.
  apply (encodeText_of_filtered_text table_doc 1 table_tree 10).
  - exact table_is_tree.
  - exact table_text_leaves.
  - vm_compute. lia.
Defined.

(** * More of the handle *)

(** ** Children *)

Lemma Children_loop_spec (h : heap) (c : option ptr) (kids : list tree) :
  siblings h c kids →
  ∀ k d m acc, length kids < k →
    Children_loop h k (mkNode c d m) acc
    = Ret (acc ++ ((fun t => mkNode (Some (root t)) d m) <$> kids)).
Proof.
  induction 1 as [|c kids ts _ _ Hts IH]; intros k d m acc Hk.
  - destruct k as [|k]; [simpl in Hk; lia|]. cbn. by rewrite app_nil_r.
  - destruct k as [|k]; [simpl in Hk; lia|].
    simpl in Hk. cbn [Children_loop Data].
    unfold Node_NextSibling. cbn [Data Depth Match].
    rewrite IH by lia. cbn [fmap list_fmap root]. by rewrite <- app_assoc.
Qed.

Lemma Children_spec (h : heap) (p : ptr) (t : tree) (d : Z) (m : option Node)
    (fuel : nat) :
  shape h p t → length (children t) < fuel →
  Node_Children h fuel (mkNode (Some p) d m)
  = Ret ((fun c => mkNode (Some (root c)) (int_wrap (d + 1)) m) <$> children t).
Proof.
  intros [_ Hkids] Hfuel. unfold Node_Children, Node_FirstChild. cbn [Data Depth Match].
  by rewrite (Children_loop_spec h _ _ Hkids).
Qed.

(** X11. [Children] of a present handle returns one handle for every
    child of the node, in the order of the siblings: each one present, one
    level deeper than the handle in Go's [int] arithmetic, and with the
    handle's back-reference. Of an absent handle it returns nothing. *)
Theorem Children_one_handle_per_child (h : heap) (p : ptr) (t : tree) (d : Z)
    (m : option Node) (fuel : nat) :
  shape h p t → length (children t) < fuel →
  ∃ cs,
    Node_Children h fuel (mkNode (Some p) d m) = Ret cs
    ∧ Data <$> cs = (fun c => Some (root c)) <$> children t
    ∧ Forall (fun child => Depth child = int_wrap (d + 1) ∧ Match child = m) cs
    ∧ Node_Children h fuel (mkNode None d m) = Ret [].
Proof.
  intros Hshape Hfuel. eexists.
  split; [by apply Children_spec|].
  split; [by rewrite <- list_fmap_compose|].
  split; [|done].
  apply Forall_fmap, Forall_forall. by intros c _.
Qed.

Lemma Children_one_handle_per_child_witness :
  ∃ cs,
    Node_Children table_doc 5 (mkNode (Some 2) 1 None) = Ret cs
    ∧ Data <$> cs
      = (fun c => Some (root c)) <$> children (T 2 [T 3 [T 4 [T 5 []]]; T 6 [T 7 [T 8 []]]])
    ∧ Forall (fun child => Depth child = int_wrap (1 + 1) ∧ Match child = None) cs
    ∧ Node_Children table_doc 5 (mkNode None 1 None) = Ret [].
Proof.
  apply (Children_one_handle_per_child table_doc 2
           (T 2 [T 3 [T 4 [T 5 []]]; T 6 [T 7 [T 8 []]]]) 1 None 5).
  - split; [reflexivity|]. repeat constructor.
  - simpl. lia.
Defined.

(** X12. When the parent pointers of the children of a node lead back to
    the node, [Parent] undoes [Children]: the parent of every handle that
    [Children] returns is the handle itself, with its depth and its
    back-reference. *)
Theorem Parent_of_Children (h : heap) (p : ptr) (t : tree) (d : Z)
    (m : option Node) (fuel : nat) :
  shape h p t →
  (∀ c, c ∈ children t → html.Parent (h (root c)) = Some p) →
  is_int d → length (children t) < fuel →
  ∃ cs,
    Node_Children h fuel (mkNode (Some p) d m) = Ret cs
    ∧ length cs = length (children t)
    ∧ Forall (fun child => Node_Parent h child = mkNode (Some p) d m) cs.
Proof.
  intros Hshape Hparent Hd Hfuel. eexists.
  split; [by apply Children_spec|].
  split; [by rewrite length_fmap|].
  apply Forall_fmap, Forall_forall. intros c Hc. cbn.
  unfold Node_Parent. cbn [Data Depth Match].
  by rewrite (Hparent c Hc), int_wrap_succ_pred.
Qed.

Lemma Parent_of_Children_witness :
  ∃ cs,
    Node_Children table_doc 5 (mkNode (Some 2) 1 None) = Ret cs
    ∧ length cs = length (children (T 2 [T 3 [T 4 [T 5 []]]; T 6 [T 7 [T 8 []]]]))
    ∧ Forall (fun child => Node_Parent table_doc child = mkNode (Some 2) 1 None) cs.
Proof.
  apply (Parent_of_Children table_doc 2
           (T 2 [T 3 [T 4 [T 5 []]]; T 6 [T 7 [T 8 []]]]) 1 None 5).
  - split; [reflexivity|]. repeat constructor.
  - intros c Hc. cbn [children] in Hc.
    apply elem_of_cons in Hc as [->|Hc]; [reflexivity|].
    apply list_elem_of_singleton in Hc as ->. reflexivity.
  - unfold is_int, int_min, int_max. lia.
  - simpl. lia.
Defined.

(** ** Sequences of moves *)

Lemma int_wrap_add_l (a b : Z) : int_wrap (int_wrap a + b) = int_wrap (a + b).
Proof.
  unfold int_wrap.
  replace ((a - int_min) `mod` 2 ^ 64 + int_min + b - int_min)%Z
    with ((a - int_min) `mod` 2 ^ 64 + b)%Z by lia.
  rewrite Z.add_mod_idemp_l by done. do 2 f_equal. lia.
Qed.

Lemma int_wrap_sub_add (a b c : Z) :
  int_wrap (int_wrap (int_wrap a - b) + c) = int_wrap (a - b + c).
Proof.
  rewrite int_wrap_add_l.
  replace (int_wrap a - b + c)%Z with (int_wrap a + (- b + c))%Z by lia.
  rewrite int_wrap_add_l. f_equal. lia.
Qed.

Lemma levels_cons (mv : move) (path : list move) :
  levels (mv :: path)
  = match mv with
    | to_Parent => (levels path - 1)%Z
    | to_FirstChild | to_LastChild => (levels path + 1)%Z
    | to_PrevSibling | to_NextSibling => levels path
    end.
Proof. reflexivity. Qed.

(** X13. Along any sequence of calls of the five accessors, from any
    handle: the depth ends at the depth of the start plus the number of
    moves to a child minus the number of moves to a parent, in Go's [int]
    arithmetic, whether or not the nodes on the way exist; [MatchDepth]
    moves by the same amount; the back-reference stays what it was; and
    an absent handle stays absent to the end. *)
Theorem walk_bookkeeping (h : heap) (path : list move) :
  ∀ n, is_int (Depth n) →
    Depth (walk h n path) = int_wrap (Depth n + levels path)
    ∧ Node_MatchDepth (walk h n path) = int_wrap (Node_MatchDepth n + levels path)
    ∧ Match (walk h n path) = Match n
    ∧ (Data n = None → Data (walk h n path) = None).
Proof.
  induction path as [|mv path IH]; intros n Hn.
  - cbn [walk foldl levels foldr]. unfold Node_MatchDepth.
    rewrite !Z.add_0_r. rewrite (int_wrap_small (Depth n)) by done.
    split; [done|]. split; [|done].
    destruct (Match n) as [m|]; [|by rewrite int_wrap_small].
    rewrite <- (Z.add_0_r (int_wrap (Depth n - Depth m))) at 2.
    by rewrite int_wrap_add_l, Z.add_0_r.
  - change (walk h n (mv :: path)) with (walk h (go h n mv) path).
    assert (is_int (Depth (go h n mv))) as Hgo.
    { destruct n as [[p|] d m], mv; cbn; first [apply int_wrap_is_int|done]. }
    destruct (IH (go h n mv) Hgo) as (Hd & Hmd & Hm & Habs).
    assert (Match (go h n mv) = Match n) as Hmatch
      by (by destruct n as [[p|] d m], mv).
    assert (int_wrap (Depth (go h n mv) + levels path)
            = int_wrap (Depth n + levels (mv :: path))) as Hdepth.
    { rewrite levels_cons.
      destruct n as [[p|] d m], mv; cbn [go];
        unfold Node_Parent, Node_FirstChild, Node_LastChild,
               Node_PrevSibling, Node_NextSibling; cbn [Data Depth Match];
        rewrite ?int_wrap_add_l; f_equal; lia. }
    split; [by rewrite Hd|].
    split.
    { rewrite Hmd. unfold Node_MatchDepth. rewrite Hmatch.
      destruct (Match n) as [m|]; [|exact Hdepth].
      rewrite levels_cons.
      destruct n as [[p|] d m'], mv; cbn [go];
        unfold Node_Parent, Node_FirstChild, Node_LastChild,
               Node_PrevSibling, Node_NextSibling; cbn [Data Depth Match];
        rewrite ?int_wrap_sub_add, ?int_wrap_add_l; f_equal; lia. }
    split; [by rewrite Hm|].
    intros Hnone. apply Habs. by destruct n as [[p|] d m], mv.
Qed.

Lemma walk_bookkeeping_witness :
  Depth (walk table_doc row_handle [to_FirstChild; to_NextSibling; to_Parent; to_Parent])
  = int_wrap (Depth row_handle + levels [to_FirstChild; to_NextSibling; to_Parent; to_Parent])
  ∧ Node_MatchDepth
      (walk table_doc row_handle [to_FirstChild; to_NextSibling; to_Parent; to_Parent])
    = int_wrap (Node_MatchDepth row_handle
                + levels [to_FirstChild; to_NextSibling; to_Parent; to_Parent])
  ∧ Match (walk table_doc row_handle [to_FirstChild; to_NextSibling; to_Parent; to_Parent])
    = Match row_handle
  ∧ (Data row_handle = None →
     Data (walk table_doc row_handle [to_FirstChild; to_NextSibling; to_Parent; to_Parent])
     = None).
Proof.
  apply (walk_bookkeeping table_doc
           [to_FirstChild; to_NextSibling; to_Parent; to_Parent] row_handle).
  unfold is_int, int_min, int_max. simpl. lia.
Defined.

Example walk_off_the_tree :
  walk table_doc row_handle [to_FirstChild; to_NextSibling; to_Parent; to_Parent]
  = mkNode None 1 (Some tbody_handle).
Proof. reflexivity. Qed.

(** ** Type and Tag *)

(** X14. [Tag] never dereferences a nil node: it returns for every handle.
    For a present handle whose node is an element it returns the data of
    that node; for a present handle whose node is no element, and for an
    absent handle, whose [Type] is [ErrorNode], it returns the empty
    string. *)
Theorem Tag_of_elements_only (h : heap) (n : Node) :
  (∀ d, Data n = Some d → html.Type_ (h d) = html.ElementNode →
        Node_Type h n = html.ElementNode ∧ Node_Tag h n = Ret (html.Data (h d)))
  ∧ (∀ d, Data n = Some d → html.Type_ (h d) ≠ html.ElementNode →
          Node_Type h n = html.Type_ (h d) ∧ Node_Tag h n = Ret "")
  ∧ (Data n = None → Node_Type h n = html.ErrorNode ∧ Node_Tag h n = Ret "").
Proof.
  unfold Node_Tag, Node_Type. destruct n as [[d|] depth m]; cbn [Data].
  - split; [intros d' [= <-] Htype; by rewrite Htype|].
    split; [|done].
    intros d' [= <-] Htype. by destruct (html.Type_ (h d)).
  - by repeat split.
Qed.

Example Tag_of_table :
  Node_Tag table_doc (mkNode (Some 1) 0 None) = Ret "table"
  ∧ Node_Tag table_doc (mkNode (Some 5) 4 None) = Ret ""
  ∧ Node_Tag table_doc (mkNode None 0 None) = Ret "".
Proof. repeat split. Qed.

(** * More of the traversal on a tree *)

Lemma chain_ends_in_last (fs : list predicate) (m : tree) (n : ptr) :
  chain fs m n → ∃ f, last fs = Some f ∧ f n = true.
Proof.
  induction 1 as [f m Hf|f g rest m m' n _ _ _ IH]; [by exists f|].
  destruct IH as (f' & Hlast & Hf'). by exists f'.
Qed.

(** X17. On a tree, every node that the collecting traversal returns
    satisfies the last filter of the chain. *)
Theorem results_satisfy_last_filter (h : heap) (p : ptr) (t : tree)
    (fs : list (option predicate)) (fuel : nat) :
  is_tree h p t → size t < fuel → valid fs ≠ [] →
  ∃ result f,
    filterNodes h fuel (filterNodesConfig.mk (Some p) fs false) = Ret result
    ∧ last (valid fs) = Some f
    ∧ ∀ n, n ∈ result → f n = true.
Proof.
  intros [Hshape _] Hfuel Hfs.
  destruct (last (valid fs)) as [f|] eqn:Hlast; [|by apply last_None in Hlast].
  exists (collect t (valid fs)), f.
  split; [exact (filterNodes_found h fuel p t fs false Hshape Hfuel)|].
  split; [done|]. intros n Hn.
  apply collect_chain in Hn as (m & _ & Hchain); [|done].
  apply chain_ends_in_last in Hchain as (f' & Hlast' & Hf').
  congruence.
Qed.

Lemma results_satisfy_last_filter_witness :
  ∃ result f,
    filterNodes table_doc 10
      (filterNodesConfig.mk (Some 1) [Some (fun _ => true); None; Some (is_tag table_doc "td")]
         false) = Ret result
    ∧ last (valid [Some (fun _ => true); None; Some (is_tag table_doc "td")]) = Some f
    ∧ ∀ n, n ∈ result → f n = true.
Proof.
  apply (results_satisfy_last_filter table_doc 1 table_tree _ 10).
  - exact table_is_tree.
  - vm_compute. lia.
  - vm_compute. discriminate.
Defined.

(** X18. On a tree, the start node itself is returned exactly when the
    chain holds no filter at all, or holds a single filter that the start
    satisfies: with two or more filters the start is never among the
    results. *)
Theorem start_returned_by_single_filter_only (h : heap) (p : ptr) (t : tree)
    (fs : list (option predicate)) (fuel : nat) :
  is_tree h p t → size t < fuel →
  ∃ result,
    filterNodes h fuel (filterNodesConfig.mk (Some p) fs false) = Ret result
    ∧ (p ∈ result ↔ valid fs = [] ∨ ∃ f, valid fs = [f] ∧ f p = true).
Proof.
  intros [Hshape Hnd] Hfuel. exists (collect t (valid fs)).
  split; [exact (filterNodes_found h fuel p t fs false Hshape Hfuel)|].
  destruct Hshape as [Hroot _]. destruct t as [n kids]. cbn [root] in Hroot. subst n.
  cbn [nodes] in Hnd. apply NoDup_cons in Hnd as [Hp _].
  assert (∀ gs, p ∉ kids ≫= (fun c => collect c gs)) as Hbelow.
  { intros gs (c & Hin & Hc)%list_elem_of_bind. apply Hp.
    apply list_elem_of_bind. exists c. split; [|done].
    by apply (collect_nodes c gs). }
  destruct (valid fs) as [|f rest].
  { split; [by left|]. intros _. left. }
  rewrite collect_unfold by done.
  destruct (f p) eqn:Hf.
  - destruct rest as [|g rest].
    + split; [right; by exists f|]. intros _. left.
    + split; [by intros ?%Hbelow|]. by intros [?|(f' & [= _ ?] & _)].
  - split; [by intros ?%Hbelow|].
    intros [?|(f' & [= <- _] & Hf')]; [done|congruence].
Qed.

Lemma start_returned_by_single_filter_only_witness :
  ∃ result,
    filterNodes table_doc 10
      (filterNodesConfig.mk (Some 1) [Some (fun _ => true); Some (fun _ => true)] false)
    = Ret result
    ∧ (1 ∈ result ↔
       valid [Some (fun _ => true); Some (fun _ => true)] = []
       ∨ ∃ f, valid [Some (fun _ => true); Some (fun _ => true)] = [f] ∧ f 1 = true).
Proof.
  apply (start_returned_by_single_filter_only table_doc 1 table_tree _ 10).
  - exact table_is_tree.
  - vm_compute. lia.
Defined.
